(** * gpii-json-schema: the validator component and its error tree

    A shallow embedding of [src/js/common/validate.js].

    The JavaScript code builds its report by mutating objects it holds
    references to: [resolveOrCreateTargetFromPath] hands back a reference into
    the error map and [saveToPath] pushes onto it.  The embedding therefore
    keeps an explicit store of objects addressed by locations, and every
    function of the source is a computation over that store which can return,
    throw, or get stuck: on a store that no JavaScript execution produces (a
    reference to an object that was never allocated), and where the embedding
    does not follow the source (see below).

    Objects of the store are modelled by their own properties: a plain
    object is a finite map from property names to references, an array is its
    sequence of elements together with the named properties that JavaScript
    allows the code to attach to it.  A read [resolvedTarget[segment]] is the
    read of an own property for every name but the indices and the [length]
    of an array and the members of [Object.prototype] and [Array.prototype];
    for those names the source reads something else, which the store does
    not hold: there the embedding stops ([Js.beyond]), and the statements
    about the report are stated for names that are read as own properties
    ([own_names], [own_paths]).  For [that.schemaContents] the read is
    modelled with the inherited members and with the truthiness that the
    source tests ([read_member], [member_truthy]).

    Z-Schema is a collaborator of the component and enters as an interface.
    The pointer resolver and the merge engine that the specification
    describes are not part of [validate.js]; module [Spec] models them from
    the specification, and the fixtures of [tests/schemas] serve as
    examples. *)

From Stdlib Require Import Ascii String.
From stdpp Require Import base option list strings gmap fin_maps pretty.

Local Open Scope string_scope.
Local Open Scope list_scope.
Set Warnings "-register-all".

(** ** Strings: [String.prototype.split] with a one character separator *)

Module JsString.

(** [s.split(sep)]: the pieces of [s] between the occurrences of [sep].
    The result is never empty; the empty string splits into one empty
    piece. *)
Fixpoint split (sep : Ascii.ascii) (s : string) : list string :=
  match s with
  | EmptyString => [EmptyString]
  | String c rest =>
      if Ascii.eqb c sep then EmptyString :: split sep rest
      else match split sep rest with
           | [] => [String c EmptyString]
           | piece :: pieces => String c piece :: pieces
           end
  end.

(** [a.slice(1)] *)
Definition slice1 {A} (a : list A) : list A := drop 1 a.

End JsString.

(** ** Raw errors reported by z-schema *)

Record raw_error := RawError {
  code    : string;
  params  : option (list string);   (* [None]: the field is absent *)
  message : string;
  path    : string
}.

(** ** The store of JavaScript objects *)

Definition loc := positive.

(** An object of the store: a plain object [{...}] or an array [[...]].  The
    elements of the arrays built here are the error strings pushed onto
    them. *)
Inductive object :=
  | Obj (props : gmap string loc)
  | Arr (elems : list string) (props : gmap string loc).

Definition props_of (o : object) : gmap string loc :=
  match o with Obj ps => ps | Arr _ ps => ps end.

Definition elems_of (o : object) : list string :=
  match o with Obj _ => [] | Arr es _ => es end.

Definition is_array (o : object) : bool :=
  match o with Obj _ => false | Arr _ _ => true end.

Definition set_prop (o : object) (k : string) (l : loc) : object :=
  match o with
  | Obj ps => Obj (<[k := l]> ps)
  | Arr es ps => Arr es (<[k := l]> ps)
  end.

Abbreviation heap := (gmap loc object).

(** A value held in a variable of the source: [undefined] or a reference. *)
Abbreviation value := (option loc).

(** What [fluid.fail] is called with. *)
Inductive fail_arg :=
  | FailMessage (msg : string)
  | FailErrors (errors : list raw_error).

Inductive exn :=
  | TypeError
  | Failure (arg : fail_arg).

Inductive outcome (A : Type) :=
  | Ret (a : A) (h : heap)
  | Throw (e : exn) (h : heap)
  | Stuck.
Arguments Ret {A} a h.
Arguments Throw {A} e h.
Arguments Stuck {A}.

(** Computations over the store. *)
Definition M (A : Type) : Type := heap → outcome A.

Definition ret {A} (a : A) : M A := λ h, Ret a h.

Definition bind {A B} (m : M A) (k : A → M B) : M B :=
  λ h, match m h with
       | Ret a h' => k a h'
       | Throw e h' => Throw e h'
       | Stuck => Stuck
       end.

Definition throw {A} (e : exn) : M A := λ h, Throw e h.

Notation "x <- m ;; k" := (bind m (λ x, k))
  (at level 100, m at next level, right associativity).
Notation "m ;; k" := (bind m (λ _, k))
  (at level 100, right associativity).

(** ** Names an object holds itself

    The source reads [resolvedTarget[segment]].  An object or an array
    answers to some names without holding them as a property of its own: an
    array to its indices and to [length], and both to the members of
    [Object.prototype] and [Array.prototype].  For every other name the read
    is a read of an own property, which is what the embedding models. *)

Definition is_digit (c : Ascii.ascii) : bool :=
  (48 <=? Ascii.nat_of_ascii c)%nat && (Ascii.nat_of_ascii c <=? 57)%nat.

Fixpoint all_digits (s : string) : bool :=
  match s with
  | EmptyString => true
  | String c rest => is_digit c && all_digits rest
  end.

Definition builtin_names : list string :=
  ["length"; "constructor"; "__proto__"; "__defineGetter__"; "__defineSetter__";
   "__lookupGetter__"; "__lookupSetter__"; "hasOwnProperty"; "isPrototypeOf";
   "propertyIsEnumerable"; "toLocaleString"; "toString"; "toSource"; "valueOf";
   "at"; "concat"; "copyWithin"; "entries"; "every"; "fill"; "filter"; "find";
   "findIndex"; "findLast"; "findLastIndex"; "flat"; "flatMap"; "forEach";
   "includes"; "indexOf"; "join"; "keys"; "lastIndexOf"; "map"; "pop"; "push";
   "reduce"; "reduceRight"; "reverse"; "shift"; "slice"; "some"; "sort";
   "splice"; "toReversed"; "toSorted"; "toSpliced"; "unshift"; "values"; "with"].

(** A name that is read as an own property: not a sequence of digits (the
    empty name is none) and not the name of a built-in member. *)
Definition own_name (s : string) : bool :=
  (String.eqb s "" || negb (all_digits s))
  && negb (existsb (String.eqb s) builtin_names).

Definition own_names (p : list string) : bool := forallb own_name p.

Module Js.

Definition deref (l : loc) : M object :=
  λ h, match h !! l with Some o => Ret o h | None => Stuck end.

Definition store (l : loc) (o : object) : M unit :=
  λ h, Ret tt (<[l := o]> h).

(** A literal [{}] or [[]]: a new object at a location not yet in use. *)
Definition alloc (o : object) : M loc :=
  λ h, let l := fresh (dom h) in Ret l (<[l := o]> h).

(** The embedding does not follow the source any further. *)
Definition beyond {A} : M A := λ _, Stuck.

(** [v[k]] read.  For a name that is read as an own property the value is
    that property or [undefined]; at any other name the embedding stops. *)
Definition get (v : value) (k : string) : M value :=
  match v with
  | None => throw TypeError
  | Some l =>
      if own_name k then o <- deref l ;; ret (props_of o !! k) else beyond
  end.

(** [v[k] = l'], which gives the object an own property for a name that is
    read as one; at any other name the embedding stops. *)
Definition set (v : value) (k : string) (l' : loc) : M unit :=
  match v with
  | None => throw TypeError
  | Some l =>
      if own_name k then o <- deref l ;; store l (set_prop o k l') else beyond
  end.

(** [v.push(s)]: only arrays have [push]. *)
Definition push (v : value) (s : string) : M unit :=
  match v with
  | None => throw TypeError
  | Some l =>
      o <- deref l ;;
      match o with
      | Arr es ps => store l (Arr (es ++ [s]) ps)
      | Obj _ => throw TypeError
      end
  end.

(** [fluid.each(list, fn)] over an array. *)
Fixpoint each {A} (xs : list A) (fn : A → M unit) : M unit :=
  match xs with
  | [] => ret tt
  | x :: xs' => fn x ;; each xs' fn
  end.

End Js.

Module Validator.

(** [removeEmptySegments]: the filter predicate [el.length > 0] (the
    elements are strings, never [undefined] or [null]). *)
Definition removeEmptySegments (el : string) : bool :=
  bool_decide (0 < String.length el).

(** [extractPathSegments] *)
Definition extractPathSegments (error : raw_error) : list string :=
  let segments :=
    JsString.slice1
      (List.filter removeEmptySegments (JsString.split "/" (path error))) in
  if String.eqb (code error) "OBJECT_MISSING_REQUIRED_PROPERTY" then
    match params error with
    | Some ps => segments ++ ps
    | None => segments
    end
  else segments.

(** [resolveOrCreateTargetFromPath]: the loop over [path]; the remaining
    path is empty exactly when [a === path.length - 1].  What is stored under
    a name is an object or an array, so the test [!resolvedTarget[segment]]
    is the test for an own property, for names that are read as such. *)
Fixpoint resolveOrCreateTargetFromPath (target : value) (path : list string)
  : M value :=
  match path with
  | [] => ret target
  | segment :: rest =>
      found <- Js.get target segment ;;
      match found with
      | None =>
          fresh_node <- Js.alloc (match rest with
                                  | [] => Arr [] ∅
                                  | _ :: _ => Obj ∅
                                  end) ;;
          Js.set target segment fresh_node
      | Some _ => ret tt
      end ;;
      resolvedTarget <- Js.get target segment ;;
      resolveOrCreateTargetFromPath resolvedTarget rest
  end.

(** [saveToPath] *)
Definition saveToPath (path : list string) (errorString : string)
    (errorMap : value) : M unit :=
  target <- Js.get errorMap "fieldErrors" ;;
  target <- (if bool_decide (0 < length path)
             then resolveOrCreateTargetFromPath target path
             else Js.get errorMap "documentErrors") ;;
  Js.push target errorString.

(** [sanitizeError] *)
Definition sanitizeError (error : raw_error) (errorMap : value) : M unit :=
  let path := extractPathSegments error in
  saveToPath path (message error) errorMap.

(** [sanitizeValidationErrors] *)
Definition sanitizeValidationErrors (errors : list raw_error) : M value :=
  documentErrors <- Js.alloc (Arr [] ∅) ;;
  fieldErrors <- Js.alloc (Obj ∅) ;;
  sanitizedErrors <-
    Js.alloc (Obj (<["documentErrors" := documentErrors]>
                    (<["fieldErrors" := fieldErrors]> ∅))) ;;
  Js.each errors (λ error, sanitizeError error (Some sanitizedErrors)) ;;
  ret (Some sanitizedErrors).

End Validator.

(** ** The component: [gpii.schema.validator] *)

(** [that.schemaContents]: the registered schemas by key, in the order
    [Object.keys] enumerates them. *)
Fixpoint lookup_key {A} (key : string) (m : list (string * A)) : option A :=
  match m with
  | [] => None
  | (k, a) :: m' => if String.eqb k key then Some a else lookup_key key m'
  end.

Definition keys {A} (m : list (string * A)) : list string := m.*1.

(** JavaScript truthiness of a registered document, which is what
    [!that.schemaContents[key]] tests: [null], [false], [0] and the empty
    string are falsy, every object is truthy. *)
Class Truthy (A : Type) := truthy : A → bool.

(** [that.schemaContents] is a plain object.  The names it answers to without
    holding them are the members of [Object.prototype]: functions, and for
    [__proto__] the prototype itself, none of them falsy. *)
Definition object_prototype_names : list string :=
  ["constructor"; "__proto__"; "__defineGetter__"; "__defineSetter__";
   "__lookupGetter__"; "__lookupSetter__"; "hasOwnProperty"; "isPrototypeOf";
   "propertyIsEnumerable"; "toLocaleString"; "toString"; "valueOf"].

Definition inherited (name : string) : bool :=
  existsb (String.eqb name) object_prototype_names.

(** What [that.schemaContents[key]] evaluates to when it is not [undefined]:
    the document registered under the key, or else the inherited member of
    that name. *)
Inductive member (schema : Type) :=
  | Registered (s : schema)
  | Inherited (name : string).
Arguments Registered {schema} s.
Arguments Inherited {schema} name.

(** [that.schemaContents[key]]; [None] is [undefined]. *)
Definition read_member {schema} (key : string) (m : list (string * schema))
  : option (member schema) :=
  match lookup_key key m with
  | Some s => Some (Registered s)
  | None => if inherited key then Some (Inherited key) else None
  end.

Definition member_truthy {schema} `{Truthy schema} (found : member schema) : bool :=
  match found with
  | Registered s => truthy s
  | Inherited _ => true
  end.

(** The validator the component obtains from [that.getValidator()].  Z-Schema
    itself is not part of the component: the class states what the component
    calls.  The second argument of [validate] is whatever
    [that.schemaContents[key]] evaluated to. *)
Class ZSchema (schema content : Type) := {
  instance_state : Type;
  getValidator : instance_state;
  validateSchema : list schema → instance_state → bool * instance_state;
  validate_content :
    content → member schema → instance_state → bool * instance_state;
  getLastErrors : instance_state → list raw_error
}.

Section Component.
Context {schema content : Type} `{ZSchema schema content} `{Truthy schema}.

(** The calls made on the validator, in order. *)
Inductive call :=
  | CallGetValidator
  | CallValidateSchema (schemas : list schema)
  | CallValidate (data : content) (found : member schema)
  | CallGetLastErrors.

Record world := World {
  schemaContents : list (string * schema);
  objects : heap;
  calls : list call
}.

Inductive completion :=
  | Returned (v : value)
  | Raised (e : exn)
  | Wedged.

Definition called (c : call) (w : world) : world :=
  World (schemaContents w) (objects w) (calls w ++ [c]).

(** Run a computation over the store of [w]. *)
Definition run (m : M value) (w : world) : completion * world :=
  match m (objects w) with
  | Ret v h => (Returned v, World (schemaContents w) h (calls w))
  | Throw e h => (Raised e, World (schemaContents w) h (calls w))
  | Stuck => (Wedged, w)
  end.

Definition no_schema_content : string :=
  "You tried to validate a component for which we have no schema content.  Can't continue.".

(** Whether [that.schemaContents[key]] is truthy. *)
Definition has_content (key : string) (w : world) : bool :=
  match read_member key (schemaContents w) with
  | Some found => member_truthy found
  | None => false
  end.

(** [gpii.schema.validator.validate]; [that.schemaContents[key]] is read
    twice by the source and nothing writes it in between.  [Object.keys]
    lists the registered keys only, so [validateSchema] is handed the
    registered documents. *)
Definition validate (key : string) (data : content) (w : world)
  : completion * world :=
  match read_member key (schemaContents w) with
  | None => (Raised (Failure (FailMessage no_schema_content)), w)
  | Some found =>
      if negb (member_truthy found) then
        (Raised (Failure (FailMessage no_schema_content)), w)
      else
        let validator := getValidator in
        let w := called CallGetValidator w in
        let schemas :=
          omap (λ v, lookup_key v (schemaContents w)) (keys (schemaContents w)) in
        let '(schemasValid, validator) := validateSchema schemas validator in
        let w := called (CallValidateSchema schemas) w in
        if negb schemasValid then
          (Raised (Failure (FailErrors (getLastErrors validator))),
           called CallGetLastErrors w)
        else
          let '(contentValid, validator) :=
            validate_content data found validator in
          let w := called (CallValidate data found) w in
          if negb contentValid then
            run (Validator.sanitizeValidationErrors (getLastErrors validator))
                (called CallGetLastErrors w)
          else (Returned None, w)
  end.

End Component.

(** ** The pointer resolver and the merge engine of the specification *)

Module Spec.




(** Modelled from the spec: a dereferenced schema document, of which the
    repository has only test fixtures: a tree of mappings, sequences and
    scalars, where a mapping may carry an [errors] block from keyword to
    message. *)
Inductive snode :=
  | Scalar
  | Mapping (errors : option (gmap string string))
            (members : gmap string snode)
  | Sequence (items : list snode).

(** The error message index, keyed by pointer path and keyword. *)
Abbreviation index := (gmap (list string * string) string).

Definition entries (ptr : list string)
    (errors : option (gmap string string)) : index :=
  match errors with
  | None => ∅
  | Some block => kmap (pair ptr) block
  end.

(** Modelled from the spec: the tree walk of the merge engine (section 4.3),
    which accumulates the pointer path as it descends; the members of a
    sequence are walked positionally, the position being the segment. *)
Fixpoint collect (ptr : list string) (n : snode) : index :=
  match n with
  | Scalar => ∅
  | Mapping errors members =>
      entries ptr errors ∪
      map_fold (λ k c acc, collect (ptr ++ [k]) c ∪ acc) ∅ members
  | Sequence items =>
      (fix positional (i : nat) (items : list snode) : index :=
         match items with
         | [] => ∅
         | c :: cs => collect (ptr ++ [pretty i]) c ∪ positional (S i) cs
         end) 0%nat items
  end.

(** Modelled from the spec: [merge]; the base supplies the fallback
    messages, the overlays are applied in order and each overrides what came
    before it. *)
Definition merge (base : snode) (overlays : list snode) : index :=
  foldl (λ idx overlay, collect [] overlay ∪ idx) (collect [] base) overlays.

(** Modelled from the spec: the message the localizer reports for a raw
    error whose schema path gives [key] (section 4.5). *)
Definition localizeMessage (idx : index) (key : list string * string)
    (raw : string) : string :=
  default raw (idx !! key).

(** The node a pointer path addresses. *)
Fixpoint item_from (i : nat) (seg : string) (items : list snode)
  : option snode :=
  match items with
  | [] => None
  | c :: cs =>
      if decide (pretty i = seg) then Some c else item_from (S i) seg cs
  end.

Fixpoint node_at (n : snode) (p : list string) : option snode :=
  match p with
  | [] => Some n
  | seg :: p' =>
      match n with
      | Scalar => None
      | Mapping _ members =>
          match members !! seg with
          | Some c => node_at c p'
          | None => None
          end
      | Sequence items =>
          match item_from 0 seg items with
          | Some c => node_at c p'
          | None => None
          end
      end
  end.

Definition errors_of (n : snode) : option (gmap string string) :=
  match n with
  | Mapping errors _ => errors
  | _ => None
  end.

(** The message a schema declares for [kw] at the node addressed by [p]. *)
Definition message_at (n : snode) (p : list string) (kw : string)
  : option string :=
  match node_at n p with
  | Some c =>
      match errors_of c with
      | Some block => block !! kw
      | None => None
      end
  | None => None
  end.

(** The walk over the members of a sequence, from position [i] on. *)
Fixpoint positional (ptr : list string) (i : nat) (items : list snode) : index :=
  match items with
  | [] => ∅
  | c :: cs => collect (ptr ++ [pretty i]) c ∪ positional ptr (S i) cs
  end.

(** The number of nodes of a schema. *)
Fixpoint size_of (n : snode) : nat :=
  match n with
  | Scalar => 1
  | Mapping _ members => S (map_fold (λ _ c acc, size_of c + acc) 0 members)
  | Sequence items => S (list_sum (map size_of items))
  end.


(** The layers of a merge that declare a message at [p] for [kw], the last
    one winning. *)
Definition layered (p : list string) (kw : string)
    (below : option string) (overlays : list snode) : option string :=
  foldl (λ acc overlay,
           match message_at overlay p kw with
           | Some m => Some m
           | None => acc
           end) below overlays.

End Spec.

(** ** Reading the store *)

(** The location reached from [l] through the properties named by [p]. *)
Fixpoint walk (h : heap) (l : loc) (p : list string) : option loc :=
  match p with
  | [] => Some l
  | k :: p' =>
      match h !! l with
      | Some o =>
          match props_of o !! k with
          | Some l' => walk h l' p'
          | None => None
          end
      | None => None
      end
  end.

(** The JSON document a location stands for, for stores without cycles. *)
Inductive tree :=
  | TObj (fields : list (string * tree))
  | TArr (elems : list string) (fields : list (string * tree)).

Fixpoint read (fuel : nat) (h : heap) (l : loc) : option tree :=
  match fuel with
  | O => None
  | S fuel' =>
      match h !! l with
      | None => None
      | Some o =>
          match mapM (λ kl : string * loc,
                        option_map (pair kl.1) (read fuel' h kl.2))
                     (map_to_list (props_of o)) with
          | None => None
          | Some fields =>
              Some (match o with
                    | Obj _ => TObj fields
                    | Arr es _ => TArr es fields
                    end)
          end
      end
  end.

Definition read_outcome (fuel : nat) (r : outcome value) : option tree :=
  match r with
  | Ret (Some l) h => read fuel h l
  | _ => None
  end.

(** ** Well-formed stores *)

(** Every reference held by an object of the store points to an object of the
    store. *)
Definition closed (h : heap) : Prop :=
  map_Forall (λ _ o, map_Forall (λ _ l', is_Some (h !! l')) (props_of o)) h.

Global Instance closed_dec (h : heap) : Decision (closed h).
Proof. unfold closed. apply _. Defined.

(** [h'] keeps every object of [h]: same kind, same elements, and every
    property it had, with the value it had. *)
Definition extends (h h' : heap) : Prop :=
  ∀ l o, h !! l = Some o →
    ∃ o', h' !! l = Some o' ∧ is_array o' = is_array o ∧
          elems_of o' = elems_of o ∧ props_of o ⊆ props_of o'.

(** [errorMap] is an object of the store whose [fieldErrors] and
    [documentErrors] properties hold the references [fe] and [de]. *)
Definition error_map (h : heap) (errorMap fe de : loc) : Prop :=
  ∃ o, h !! errorMap = Some o ∧
       props_of o !! "fieldErrors" = Some fe ∧
       props_of o !! "documentErrors" = Some de.

(** The messages stored at a location, none if nothing is stored there. *)
Definition stored (h : heap) (l : loc) : list string :=
  from_option elems_of [] (h !! l).

(** A store holding the report [{documentErrors: [], fieldErrors: {field1:
    ["m1"]}}] at location 1. *)
Definition example_store : heap :=
  <[1%positive := Obj (<["documentErrors" := 2%positive]>
                        (<["fieldErrors" := 3%positive]> ∅))]>
  (<[2%positive := Arr [] ∅]>
  (<[3%positive := Obj (<["field1" := 4%positive]> ∅)]>
  (<[4%positive := Arr ["m1"] ∅]> ∅))).

(** From [root], a location is reached by one path at most. *)
Definition tree_shaped (h : heap) (root : loc) : Prop :=
  ∀ p q l, walk h root p = Some l → walk h root q = Some l → p = q.

(** The messages of the errors that localize to [p], in the order of the
    list. *)
Definition messages_at (p : list string) (errors : list raw_error)
  : list string :=
  message <$> filter (λ e, Validator.extractPathSegments e = p) errors.

(** What holds of the report under construction once the errors [es] have
    been saved: the report is a tree below [fieldErrors], apart from
    [documentErrors], and each node holds the messages of the errors that
    localize to it, in their order. *)
Record report_inv (es : list raw_error) (h : heap) (root fe de : loc) : Prop := {
  inv_closed : closed h;
  inv_root : h !! root = Some (Obj (<["documentErrors" := de]>
                                     (<["fieldErrors" := fe]> ∅)));
  inv_fields : is_Some (h !! fe);
  inv_tree : tree_shaped h fe;
  inv_document_apart : ∀ q, walk h fe q ≠ Some de;
  inv_root_apart : ∀ q, walk h fe q ≠ Some root;
  inv_document : h !! de = Some (Arr (messages_at [] es) ∅);
  inv_messages : ∀ q l, q ≠ [] → walk h fe q = Some l →
                        stored h l = messages_at q es;
  inv_arrays : ∀ e, e ∈ es → Validator.extractPathSegments e ≠ [] →
                    ∃ l ms ps, walk h fe (Validator.extractPathSegments e) = Some l ∧
                               h !! l = Some (Arr ms ps);
  inv_objects : ∀ q l ps, q ≠ [] → walk h fe q = Some l → h !! l = Some (Obj ps) →
                          ∃ e, e ∈ es ∧ q `prefix_of` Validator.extractPathSegments e ∧
                               q ≠ Validator.extractPathSegments e
}.

(** The error [e] is reported for a field and, among the errors reported
    before it, one is reported below that field. *)
Definition late_parent (earlier : list raw_error) (e : raw_error) : Prop :=
  Validator.extractPathSegments e ≠ [] ∧
  Exists (λ e0, Validator.extractPathSegments e
                  `prefix_of` Validator.extractPathSegments e0 ∧
                Validator.extractPathSegments e ≠ Validator.extractPathSegments e0)
         earlier.

(** No error of the list is reported for a field after an error below that
    field. *)
Fixpoint parents_first (earlier errors : list raw_error) : Prop :=
  match errors with
  | [] => True
  | e :: errors' => ¬ late_parent earlier e ∧ parents_first (earlier ++ [e]) errors'
  end.

Global Instance late_parent_dec earlier e : Decision (late_parent earlier e).
Proof. unfold late_parent. apply _. Defined.

Global Instance parents_first_dec errors :
  ∀ earlier, Decision (parents_first earlier errors).
Proof. induction errors as [|e errors IH]; intros earlier; simpl; apply _. Defined.

(** Two errors at one field, a document error and a nested one, the first
    message reported twice. *)
Definition example_errors : list raw_error :=
  [RawError "PATTERN" None "m1" "#/field1";
   RawError "OBJECT_MISSING_REQUIRED_PROPERTY" (Some ["shallowlyRequired"])
     "m2" "#/";
   RawError "MIN_LENGTH" None "m0" "#/field1";
   RawError "INVALID_TYPE" None "m3" "#";
   RawError "PATTERN" None "m1" "#/field1"].

(** What z-schema reports for a document without its required top-level
    property. *)
Definition example_required : raw_error :=
  RawError "OBJECT_MISSING_REQUIRED_PROPERTY" (Some ["shallowlyRequired"])
    "Missing required property: shallowlyRequired" "#/".

(** Numbers as documents: [0] is the falsy one. *)
Global Instance nat_truthy : Truthy nat := λ n, negb (n =? 0)%nat.

(** A validator for examples: a schema is a number, the largest it accepts,
    and the schema 1 is not a valid schema; what is not a registered
    document is no schema to validate against. *)
Definition example_engine : ZSchema nat nat := {|
  instance_state := list raw_error;
  getValidator := [];
  validateSchema := λ schemas _,
    if forallb (λ s, negb (s =? 1)%nat) schemas then (true, [])
    else (false, [RawError "SCHEMA_INVALID" None "1 is not a schema" "#/"]);
  validate_content := λ data found _,
    match found with
    | Registered s =>
        if (data <=? s)%nat then (true, [])
        else (false, [RawError "MAXIMUM" None "too large" "#/"])
    | Inherited _ => (false, [RawError "SCHEMA_TYPE_EXPECTED" None "not a schema" "#/"])
    end;
  getLastErrors := λ st, st
|}.

Definition example_world : @world nat nat :=
  World [("base.json", 5%nat); ("evolved.json", 9%nat)] ∅ [].

Definition broken_world : @world nat nat :=
  World [("base.json", 5%nat); ("broken.json", 1%nat)] ∅ [].

(** A component with a falsy document registered. *)
Definition falsy_world : @world nat nat :=
  World [("base.json", 5%nat); ("zero.json", 0%nat)] ∅ [].

(** [zSchemaOptions], the options of the component for Z-Schema. *)
Record zSchemaOptions := ZSchemaOptions {
  noExtraKeywords : bool;
  reportPathAsArray : bool
}.

(** The defaults of [gpii.schema.validator]. *)
Definition default_options : zSchemaOptions := ZSchemaOptions true false.

(** A schema for examples: the keywords at its root and the largest number
    it accepts. *)
Record keyword_schema := KeywordSchema {
  keywords : list string;
  maximum : nat
}.

(** A schema of this kind is an object, and truthy. *)
Global Instance keyword_schema_truthy : Truthy keyword_schema := λ _, true.

(** Keywords of JSON Schema. *)
Definition vocabulary : list string :=
  ["$schema"; "id"; "title"; "description"; "type"; "properties"; "required";
   "definitions"; "allOf"; "anyOf"; "oneOf"; "not"; "enum"; "minimum";
   "maximum"; "minLength"; "maxLength"; "pattern"; "items"; "$ref"].

Definition unexpected_keywords (s : keyword_schema) : list string :=
  List.filter (λ k, negb (existsb (String.eqb k) vocabulary)) (keywords s).

(** A validator for examples that honours [noExtraKeywords] the way Z-Schema
    documents the option: when it is set, a schema with a keyword that JSON
    Schema does not define is not a valid schema. *)
Definition keyword_engine (options : zSchemaOptions)
  : ZSchema keyword_schema nat := {|
  instance_state := list raw_error;
  getValidator := [];
  validateSchema := λ schemas _,
    match (if noExtraKeywords options
           then flat_map unexpected_keywords schemas else []) with
    | [] => (true, [])
    | unexpected =>
        (false, (λ k, RawError "KEYWORD_UNEXPECTED" (Some [k])
                        "Keyword is not expected to appear in the schema" "#/")
                <$> unexpected)
    end;
  validate_content := λ data found _,
    match found with
    | Registered s =>
        if (data <=? maximum s)%nat then (true, [])
        else (false, [RawError "MAXIMUM" None "too large" "#/"])
    | Inherited _ => (false, [RawError "SCHEMA_TYPE_EXPECTED" None "not a schema" "#/"])
    end;
  getLastErrors := λ st, st
|}.

(** A schema with a maximum, and the same schema with an [errors] block
    attached. *)
Definition plain_schema : keyword_schema := KeywordSchema ["maximum"] 9.

Definition annotated_schema : keyword_schema :=
  KeywordSchema ["maximum"; "errors"] 9.

(** A store holding the report [{documentErrors: [], fieldErrors: {field1:
    {inner: ["m2"]}}}] at location 1: the node of [field1] is an object. *)
Definition nested_store : heap :=
  <[1%positive := Obj (<["documentErrors" := 2%positive]>
                        (<["fieldErrors" := 3%positive]> ∅))]>
  (<[2%positive := Arr [] ∅]>
  (<[3%positive := Obj (<["field1" := 4%positive]> ∅)]>
  (<[4%positive := Obj (<["inner" := 5%positive]> ∅)]>
  (<[5%positive := Arr ["m2"] ∅]> ∅)))).

(** An error below a field, and then two errors for that field. *)
Definition example_parent_twice : list raw_error :=
  [RawError "PATTERN" None "m2" "#/field1/inner";
   RawError "TYPE" None "m1" "#/field1";
   RawError "MIN_LENGTH" None "m3" "#/field1"].

(** The members of [definitions.testAllOf.allOf] in the fixture
    [tests/schemas/evolved.json]. *)
Definition evolved_maxLength : Spec.snode :=
  Spec.Mapping (Some {[ "maxLength" := "The 'allOf' string cannot be longer than nine characters." ]})
               {[ "maxLength" := Spec.Scalar ]}.

Definition evolved_allOf : list Spec.snode :=
  [Spec.Mapping (Some {[ "type" := "The 'allOf' field must be a string." ]})
                {[ "type" := Spec.Scalar ]};
   Spec.Mapping (Some {[ "minLength" := "The 'allOf' string must be at least four characters long." ]})
                {[ "minLength" := Spec.Scalar ]};
   evolved_maxLength;
   Spec.Mapping (Some {[ "pattern" := "The 'allOf' string must contain the word 'CAT'." ]})
                {[ "pattern" := Spec.Scalar ]}].

(** The [errors] blocks of the fixture [tests/schemas/evolved.json], at the
    root, at [definitions.testString] (the messages for [minLength] and
    [maxLength]) and at the members of [definitions.testAllOf.allOf]. *)
Definition evolved_json : Spec.snode :=
  Spec.Mapping
    (Some {[ "#/required/0" := "The 'shallowlyRequired' field is required." ]})
    {[ "definitions" :=
         Spec.Mapping None
           {[ "testString" :=
                Spec.Mapping
                  (Some {[ "minLength" := "You must enter a test string that is at least four characters long.";
                           "maxLength" := "You must enter a test string that is no more than nine characters long." ]})
                  {[ "type" := Spec.Scalar; "minLength" := Spec.Scalar;
                     "maxLength" := Spec.Scalar; "pattern" := Spec.Scalar ]};
              "testAllOf" :=
                Spec.Mapping None
                  {[ "allOf" := Spec.Sequence evolved_allOf ]} ]};
       "required" := Spec.Sequence [Spec.Scalar] ]}.

(** The same definitions without any [errors] block, as in the fixture
    [tests/schemas/gated.json]. *)
Definition gated_json : Spec.snode :=
  Spec.Mapping None
    {[ "definitions" :=
         Spec.Mapping None
           {[ "testString" :=
                Spec.Mapping None
                  {[ "type" := Spec.Scalar; "minLength" := Spec.Scalar;
                     "maxLength" := Spec.Scalar; "pattern" := Spec.Scalar ]};
              "testAllOf" :=
                Spec.Mapping None
                  {[ "allOf" :=
                       Spec.Sequence
                         [Spec.Mapping None {[ "type" := Spec.Scalar ]};
                          Spec.Mapping None {[ "minLength" := Spec.Scalar ]};
                          Spec.Mapping None {[ "maxLength" := Spec.Scalar ]};
                          Spec.Mapping None {[ "pattern" := Spec.Scalar ]}] ]} ]};
       "required" := Spec.Sequence [Spec.Scalar] ]}.

(** An overlay that replaces one message of [definitions.testString], the
    one the parser tests expect for [overlayedRootFailure]. *)
Definition better_overlay : Spec.snode :=
  Spec.Mapping None
    {[ "definitions" :=
         Spec.Mapping None
           {[ "testString" :=
                Spec.Mapping
                  (Some {[ "maxLength" := "You must enter a BETTER string that is no more than nine characters long." ]})
                  ∅ ]} ]}.

(** A failure of the whole document. *)
Definition example_document : raw_error :=
  RawError "INVALID_TYPE" None "Expected type object but found type string" "#/".

(** A store holding the incomplete error map [{documentErrors: ["m0"]}] at
    location 1. *)
Definition document_only_store : heap :=
  <[1%positive := Obj (<["documentErrors" := 2%positive]> ∅)]>
  (<[2%positive := Arr ["m0"] ∅]> ∅).

(** Whether a string holds the character [c]. *)
Fixpoint has_char (c : Ascii.ascii) (s : string) : bool :=
  match s with
  | EmptyString => false
  | String d rest => Ascii.eqb d c || has_char c rest
  end.

(** The number of leading segments of [p] that lead somewhere from [l]. *)
Fixpoint present (h : heap) (l : loc) (p : list string) : nat :=
  match p with
  | [] => 0
  | k :: p' =>
      match h !! l with
      | Some o =>
          match props_of o !! k with
          | Some l' => S (present h l' p')
          | None => 0
          end
      | None => 0
      end
  end.

(** The path notation of z-schema: the marker and the segments, each
    segment after a slash, as in [#/category/subcategory/field]. *)
Fixpoint path_notation (marker : string) (segments : list string) : string :=
  match segments with
  | [] => marker
  | s :: rest => String.append marker (String "/" (path_notation s rest))
  end.

(** The path of an error in z-schema's notation, with or without a slash at
    its end ([#/] is the document itself). *)
Definition error_path (marker : string) (segments : list string)
    (slash : bool) : string :=
  if slash then String.append (path_notation marker segments) "/"
  else path_notation marker segments.

(** A computation that throws nothing but a [TypeError]. *)
Definition type_errors_only {A} (m : M A) : Prop :=
  ∀ h e h', m h = Throw e h' → e = TypeError.

(** Every segment of the path of every error is read as an own property. *)
Definition own_paths (errors : list raw_error) : bool :=
  forallb (λ e, own_names (Validator.extractPathSegments e)) errors.

(** The node at the path of [e] was created as an object: of the errors
    saved before [e], one is reported at or below the field of [e] and none at
    the field itself. *)
Definition created_as_object (earlier : list raw_error) (e : raw_error) : Prop :=
  Validator.extractPathSegments e ≠ [] ∧
  Forall (λ e', Validator.extractPathSegments e'
                ≠ Validator.extractPathSegments e) earlier ∧
  Exists (λ e0, Validator.extractPathSegments e
                  `prefix_of` Validator.extractPathSegments e0) earlier.

(** No error of the list is reported at a node that was created as an
    object. *)
Fixpoint pushes_succeed (earlier errors : list raw_error) : Prop :=
  match errors with
  | [] => True
  | e :: errors' =>
      ¬ created_as_object earlier e ∧ pushes_succeed (earlier ++ [e]) errors'
  end.

Global Instance created_as_object_dec earlier e :
  Decision (created_as_object earlier e).
Proof. unfold created_as_object. apply _. Defined.

Global Instance pushes_succeed_dec errors :
  ∀ earlier, Decision (pushes_succeed earlier errors).
Proof. induction errors as [|e errors IH]; intros earlier; simpl; apply _. Defined.

(** What the report under construction has to do with the store [h0] it was
    started in: the objects of [h0] are as they were, the report is made of
    objects that [h0] did not hold, [fieldErrors] is an object, and below it
    an array stands only where an error was reported. *)
Record report_frame (h0 : heap) (es : list raw_error) (h : heap)
    (root fe de : loc) : Prop := {
  frame_kept : ∀ l o, h0 !! l = Some o → h !! l = Some o;
  frame_root : h0 !! root = None;
  frame_document : h0 !! de = None;
  frame_fields : ∀ q l, walk h fe q = Some l → h0 !! l = None;
  frame_object : ∃ ps, h !! fe = Some (Obj ps);
  frame_arrays : ∀ q l ms ps, q ≠ [] → walk h fe q = Some l →
                   h !! l = Some (Arr ms ps) →
                   ∃ e, e ∈ es ∧ Validator.extractPathSegments e = q
}.

(** A field, a field below it, and the first field again: the node of the
    first field is an array that gets a property. *)
Definition example_nested : list raw_error :=
  [RawError "TYPE" None "m1" "#/field1";
   RawError "PATTERN" None "m2" "#/field1/inner";
   RawError "MIN_LENGTH" None "m3" "#/field1"].

(** A field below another one, and then that other one: the node of the
    second error is an object. *)
Definition example_child_first : list raw_error :=
  [RawError "PATTERN" None "m2" "#/field1/inner";
   RawError "TYPE" None "m1" "#/field1"].

(** The node the source creates for a missing segment: [[]] for the last
    one, [{}] otherwise. *)
Definition new_node (rest : list string) : object :=
  match rest with [] => Arr [] ∅ | _ :: _ => Obj ∅ end.

(** * Properties *)

Example split_root : JsString.split "/" "#/" = ["#"; ""].
Proof. reflexivity. Qed.

Example extract_uniqueId :
  Validator.extractPathSegments
    (RawError "PATTERN" (Some ["^[a-z]+$"; "6Dot"]) "no match" "#/uniqueId")
  = ["uniqueId"].
Proof. reflexivity. Qed.

Example extract_required :
  Validator.extractPathSegments
    (RawError "OBJECT_MISSING_REQUIRED_PROPERTY" (Some ["termLabel"])
       "Missing required property: termLabel" "#/")
  = ["termLabel"].
Proof. reflexivity. Qed.

(** The report of the header comment of [validate.js]. *)
Example header_example :
  read_outcome 4
    (Validator.sanitizeValidationErrors
       [RawError "MIN_LENGTH" None "field1 must be 8 characters or longer." "#/field1";
        RawError "PATTERN" None "field1 must contain at least one uppercase letter." "#/field1";
        RawError "INVALID_TYPE" None "nested field is not a valid number." "#/category1/nestedField1"]
       ∅)
  = Some (TObj [("fieldErrors",
                 TObj [("category1",
                        TObj [("nestedField1",
                               TArr ["nested field is not a valid number."] [])]);
                       ("field1",
                        TArr ["field1 must be 8 characters or longer.";
                              "field1 must contain at least one uppercase letter."] [])]);
                ("documentErrors", TArr [] [])]).
Proof. vm_compute. reflexivity. Qed.

(** ** The store monad *)

Section StoreLemmas.
Implicit Types (h : heap) (l : loc) (o : object) (k : string).

Lemma bind_Ret {A B} (m : M A) (f : A → M B) h a h1 :
  m h = Ret a h1 → bind m f h = f a h1.
Proof. unfold bind. by intros ->. Qed.

Lemma get_Some h l o k :
  h !! l = Some o → own_name k = true →
  Js.get (Some l) k h = Ret (props_of o !! k) h.
Proof. intros Hl Hk. unfold Js.get, Js.deref, bind, ret. by rewrite Hk, Hl. Qed.

Lemma own_names_cons k p :
  own_names (k :: p) = true → own_name k = true ∧ own_names p = true.
Proof. unfold own_names. simpl. by intros ?%andb_true_iff. Qed.

Lemma own_paths_cons e es :
  own_paths (e :: es) = true →
  own_names (Validator.extractPathSegments e) = true ∧ own_paths es = true.
Proof. unfold own_paths. simpl. by intros ?%andb_true_iff. Qed.

Lemma props_set_prop o k l : props_of (set_prop o k l) = <[k := l]> (props_of o).
Proof. by destruct o. Qed.

Lemma elems_set_prop o k l : elems_of (set_prop o k l) = elems_of o.
Proof. by destruct o. Qed.

Lemma is_array_set_prop o k l : is_array (set_prop o k l) = is_array o.
Proof. by destruct o. Qed.

Lemma fresh_unused h : h !! fresh (dom h) = None.
Proof. apply not_elem_of_dom, is_fresh. Qed.

Lemma extends_refl h : extends h h.
Proof. intros l o Hl. exists o. done. Qed.

Lemma extends_trans h1 h2 h3 : extends h1 h2 → extends h2 h3 → extends h1 h3.
Proof.
  intros H12 H23 l o Hl.
  destruct (H12 l o Hl) as (o2 & Hl2 & Ha2 & He2 & Hp2).
  destruct (H23 l o2 Hl2) as (o3 & Hl3 & Ha3 & He3 & Hp3).
  exists o3. split_and!; [done|congruence|congruence|by etrans].
Qed.

Lemma walk_app h l p q :
  walk h l (p ++ q) = walk h l p ≫= λ l', walk h l' q.
Proof.
  revert l. induction p as [|k p IH]; intros l; simpl; [done|].
  destruct (h !! l) as [o|]; [|done].
  destruct (props_of o !! k) as [l'|]; [|done]. apply IH.
Qed.

Lemma walk_extends h h' l p l' :
  extends h h' → walk h l p = Some l' → walk h' l p = Some l'.
Proof.
  intros Hext. revert l. induction p as [|k p IH]; intros l; simpl; [done|].
  destruct (h !! l) as [o|] eqn:Hl; [|done].
  destruct (props_of o !! k) as [l1|] eqn:Hk; [|done].
  destruct (Hext l o Hl) as (o' & -> & _ & _ & Hsub).
  rewrite (lookup_weaken _ _ _ _ Hk Hsub). apply IH.
Qed.

(** Adding a new object and a reference to it under a property that was
    missing. *)
Lemma extends_add_leaf h l o k n new :
  h !! l = Some o → props_of o !! k = None → h !! n = None →
  extends h (<[l := set_prop o k n]> (<[n := new]> h)).
Proof.
  intros Hl Hk Hn l0 o0 Hl0.
  destruct (decide (l0 = l)) as [->|Hne].
  - rewrite lookup_insert_eq. exists (set_prop o k n).
    assert (o0 = o) as -> by congruence.
    rewrite is_array_set_prop, elems_set_prop, props_set_prop.
    split_and!; [done..|]. by apply insert_subseteq.
  - rewrite lookup_insert_ne by done.
    rewrite lookup_insert_ne by congruence. exists o0. done.
Qed.

Lemma closed_lookup h l o k l' :
  closed h → h !! l = Some o → props_of o !! k = Some l' → is_Some (h !! l').
Proof. intros Hc Hl Hk. exact (Hc l o Hl k l' Hk). Qed.

Lemma closed_add_leaf h l o k n new :
  closed h → h !! l = Some o → h !! n = None → props_of new = ∅ →
  closed (<[l := set_prop o k n]> (<[n := new]> h)).
Proof.
  intros Hc Hl Hn Hnew l0 o0 Hl0 k0 l1 Hk0.
  pose proof (closed_lookup h) as Hcl.
  assert (l ≠ n) as Hln by congruence.
  assert (∀ x, is_Some (h !! x) →
               is_Some ((<[l := set_prop o k n]> (<[n := new]> h)) !! x)) as Hkeep.
  { intros x Hx. destruct (decide (x = l)) as [->|]; [by rewrite lookup_insert_eq|].
    rewrite lookup_insert_ne by done.
    destruct (decide (x = n)) as [->|]; [by rewrite lookup_insert_eq|].
    by rewrite lookup_insert_ne. }
  destruct (decide (l0 = l)) as [->|Hne].
  - rewrite lookup_insert_eq in Hl0. injection Hl0 as <-.
    rewrite props_set_prop in Hk0.
    destruct (decide (k0 = k)) as [->|Hk].
    + rewrite lookup_insert_eq in Hk0. injection Hk0 as <-.
      rewrite lookup_insert_ne by done. by rewrite lookup_insert_eq.
    + rewrite lookup_insert_ne in Hk0 by done. eauto.
  - rewrite lookup_insert_ne in Hl0 by done.
    destruct (decide (l0 = n)) as [->|Hne'].
    + rewrite lookup_insert_eq in Hl0. injection Hl0 as <-.
      rewrite Hnew in Hk0. by rewrite lookup_empty in Hk0.
    + rewrite lookup_insert_ne in Hl0 by done. eauto.
Qed.

Lemma new_node_props rest : props_of (new_node rest) = ∅.
Proof. by destruct rest. Qed.

Lemma present_le h l p : (present h l p ≤ length p)%nat.
Proof.
  revert l. induction p as [|k p IH]; intros l; simpl; [done|].
  destruct (h !! l) as [o|]; [|lia].
  destruct (props_of o !! k) as [l'|]; [|lia]. specialize (IH l'). lia.
Qed.

End StoreLemmas.

(** ** [resolveOrCreateTargetFromPath] *)

Section ResolveOrCreate.
Implicit Types (h : heap) (l target : loc) (o : object) (path rest : list string).

Import Validator.

(** One turn of the loop when the segment is present. *)
Lemma resolve_present h target o segment l1 rest :
  h !! target = Some o → props_of o !! segment = Some l1 →
  own_name segment = true →
  resolveOrCreateTargetFromPath (Some target) (segment :: rest) h
  = resolveOrCreateTargetFromPath (Some l1) rest h.
Proof.
  intros Hl Hk Hown. cbn [resolveOrCreateTargetFromPath].
  rewrite (bind_Ret _ _ h (Some l1) h) by (rewrite (get_Some _ _ o) by done; by rewrite Hk).
  rewrite (bind_Ret _ _ h tt h) by done.
  rewrite (bind_Ret _ _ h (Some l1) h) by (rewrite (get_Some _ _ o) by done; by rewrite Hk).
  done.
Qed.

(** One turn of the loop when the segment is missing. *)
Lemma resolve_missing h target o segment rest :
  h !! target = Some o → props_of o !! segment = None →
  own_name segment = true →
  resolveOrCreateTargetFromPath (Some target) (segment :: rest) h
  = resolveOrCreateTargetFromPath (Some (fresh (dom h))) rest
      (<[target := set_prop o segment (fresh (dom h))]>
         (<[fresh (dom h) := new_node rest]> h)).
Proof.
  intros Hl Hk Hown. cbn [resolveOrCreateTargetFromPath].
  set (n := fresh (dom h)).
  assert (h !! n = None) as Hn by apply fresh_unused.
  assert (target ≠ n) as Hne by congruence.
  set (h1 := <[n := new_node rest]> h).
  set (h2 := <[target := set_prop o segment n]> h1).
  rewrite (bind_Ret _ _ h None h) by (rewrite (get_Some _ _ o) by done; by rewrite Hk).
  rewrite (bind_Ret _ _ h tt h2).
  - rewrite (bind_Ret _ _ h2 (Some n) h2); [done|].
    rewrite (get_Some _ _ (set_prop o segment n));
      [|apply lookup_insert_eq|done].
    by rewrite props_set_prop, lookup_insert_eq.
  - rewrite (bind_Ret _ _ h n h1) by (by destruct rest).
    unfold Js.set. rewrite Hown.
    rewrite (bind_Ret _ _ h1 o h1); [done|].
    unfold Js.deref, h1. by rewrite lookup_insert_ne, Hl.
Qed.

(** What the loop does on any closed store. *)
Lemma resolve_spec path : ∀ h target,
  closed h → is_Some (h !! target) → own_names path = true →
  ∃ node h',
    resolveOrCreateTargetFromPath (Some target) path h = Ret (Some node) h' ∧
    closed h' ∧ extends h h' ∧
    walk h' target path = Some node ∧
    ((h' = h ∧ walk h target path = Some node) ∨
     (h !! node = None ∧ h' !! node = Some (Arr [] ∅))) ∧
    (∀ l o, h !! l = None → h' !! l = Some o → elems_of o = []) ∧
    (∀ n, walk h target (take (S n) path) = None → n < length path →
       ∃ l o, walk h' target (take (S n) path) = Some l ∧
              h !! l = None ∧ h' !! l = Some o ∧
              if decide (S n = length path) then o = Arr [] ∅
              else is_array o = false ∧ elems_of o = []).
Proof.
  induction path as [|segment rest IH]; intros h target Hc [o Hl] Hown.
  { exists target, h.
    split_and!; [done|done|apply extends_refl|done|by left|congruence|
                 simpl; intros; lia]. }
  apply own_names_cons in Hown as [Hsegment Hrest].
  destruct (props_of o !! segment) as [l1|] eqn:Hk.
  - (* present *)
    rewrite (resolve_present h target o segment l1) by done.
    destruct (IH h l1 Hc (closed_lookup _ _ _ _ _ Hc Hl Hk) Hrest)
      as (node & h' & Hrun & Hc' & Hext & Hw & Hnew & Hempty & Hcr).
    exists node, h'. split_and!; try done.
    + destruct (Hext _ _ Hl) as (o' & Hl' & _ & _ & Hsub). simpl.
      by rewrite Hl', (lookup_weaken _ _ _ _ Hk Hsub).
    + destruct Hnew as [[-> Hw0]|?]; [left|by right].
      split; [done|]. simpl. by rewrite Hl, Hk.
    + intros n Hmiss Hn. simpl in Hmiss. rewrite Hl, Hk in Hmiss.
      destruct n as [|n]; [done|]. simpl in Hn.
      destruct (Hcr n Hmiss ltac:(lia)) as (l & o0 & Hwl & Hl0 & Hl0' & Hkind).
      exists l, o0. split_and!; try done.
      * destruct (Hext _ _ Hl) as (o' & Hl' & _ & _ & Hsub).
        change (take (S (S n)) (segment :: rest)) with (segment :: take (S n) rest).
        simpl. simpl in Hwl. by rewrite Hl', (lookup_weaken _ _ _ _ Hk Hsub).
      * simpl. destruct (decide (S n = length rest)), (decide (S (S n) = S (length rest)));
          try done; lia.
  - (* missing *)
    rewrite (resolve_missing h target o segment) by done.
    set (n0 := fresh (dom h)).
    assert (h !! n0 = None) as Hn0 by apply fresh_unused.
    assert (target ≠ n0) as Hne by congruence.
    set (h2 := <[target := set_prop o segment n0]> (<[n0 := new_node rest]> h)).
    assert (closed h2) as Hc2
      by (apply closed_add_leaf; [done..|apply new_node_props]).
    assert (extends h h2) as Hext2 by by apply extends_add_leaf.
    assert (h2 !! n0 = Some (new_node rest)) as Hn02.
    { unfold h2. rewrite lookup_insert_ne by done. apply lookup_insert_eq. }
    assert (h2 !! target = Some (set_prop o segment n0)) as Ht2
      by apply lookup_insert_eq.
    destruct (IH h2 n0 Hc2 (mk_is_Some _ _ Hn02) Hrest)
      as (node & h' & Hrun & Hc' & Hext & Hw & Hnew & Hempty & Hcr).
    assert (walk h' target [segment] = Some n0) as Hstep.
    { apply (walk_extends h2); [done|]. simpl.
      by rewrite Ht2, props_set_prop, lookup_insert_eq. }
    assert (∀ p l, walk h' n0 p = Some l → walk h' target (segment :: p) = Some l) as Hcons.
    { intros p l Hp. change (segment :: p) with ([segment] ++ p).
      by rewrite walk_app, Hstep. }
    exists node, h'. split_and!; try done.
    + by eapply extends_trans.
    + by apply Hcons.
    + right. destruct Hnew as [[-> Hw0]|[Hnode2 Hnode']].
      * destruct rest as [|s rest'].
        -- simpl in Hw0. injection Hw0 as <-. done.
        -- simpl in Hw0. rewrite Hn02 in Hw0. simpl in Hw0.
           by rewrite lookup_empty in Hw0.
      * split; [|done].
        destruct (h !! node) as [o1|] eqn:Ho1; [|done].
        destruct (Hext2 _ _ Ho1) as (? & ? & _). congruence.
    + intros l o1 Hl1 Hl1'.
      destruct (h2 !! l) as [o2|] eqn:Hl2; [|by eapply Hempty].
      destruct (Hext _ _ Hl2) as (o3 & Ho3 & _ & He3 & _).
      assert (o3 = o1) as -> by congruence. rewrite He3.
      unfold h2 in Hl2. rewrite lookup_insert_ne in Hl2 by congruence.
      destruct (decide (l = n0)) as [->|Hln].
      * rewrite lookup_insert_eq in Hl2. injection Hl2 as <-. by destruct rest.
      * rewrite lookup_insert_ne in Hl2 by done. congruence.
    + intros n _ Hn. simpl in Hn.
      change (take (S n) (segment :: rest)) with (segment :: take n rest).
      destruct n as [|n].
      * destruct (Hext _ _ Hn02) as (o' & Ho' & Harr & Hel & _).
        exists n0, o'. split_and!; [done..|].
        destruct rest as [|s rest'].
        -- simpl. simpl in Hrun. injection Hrun as <- <-.
           rewrite Hn02 in Ho'. by injection Ho' as <-.
        -- simpl. by simpl in Harr, Hel.
      * assert (walk h2 n0 (take (S n) rest) = None) as Hmiss2.
        { destruct rest as [|s rest']; [simpl in Hn; lia|].
          simpl. rewrite Hn02. simpl. by rewrite lookup_empty. }
        destruct (Hcr n Hmiss2 ltac:(lia)) as (l & o0 & Hwl & Hl0 & Hl0' & Hkind).
        exists l, o0. split_and!; try done.
        -- by apply Hcons.
        -- destruct (h !! l) as [o1|] eqn:Ho1; [|done].
           destruct (Hext2 _ _ Ho1) as (? & ? & _). congruence.
        -- simpl. destruct (decide (S n = length rest)), (decide (S (S n) = S (length rest)));
             try done; lia.
Qed.

End ResolveOrCreate.

(** ** [saveToPath] *)

Section SaveToPath.
Implicit Types (h : heap) (l t fe de : loc) (o : object) (path : list string).

Import Validator.

Lemma walk_allocated h l p l' :
  closed h → is_Some (h !! l) → walk h l p = Some l' → is_Some (h !! l').
Proof.
  intros Hc. revert l. induction p as [|k p IH]; intros l Hl; simpl.
  - by intros [= <-].
  - destruct (h !! l) as [o|] eqn:Ho; [|done].
    destruct (props_of o !! k) as [l1|] eqn:Hk; [|done].
    apply IH. by eapply closed_lookup.
Qed.

Lemma push_array h t es ps s :
  h !! t = Some (Arr es ps) →
  Js.push (Some t) s h = Ret tt (<[t := Arr (es ++ [s]) ps]> h).
Proof. intros Ht. unfold Js.push, Js.deref, bind. by rewrite Ht. Qed.

Lemma push_object h t ps s :
  h !! t = Some (Obj ps) → Js.push (Some t) s h = Throw TypeError h.
Proof. intros Ht. unfold Js.push, Js.deref, bind. by rewrite Ht. Qed.

(** Pushing keeps every object, and every property of every object. *)
Lemma extends_push h t es ps s l o :
  h !! t = Some (Arr es ps) → h !! l = Some o →
  ∃ o', <[t := Arr (es ++ [s]) ps]> h !! l = Some o' ∧
        is_array o' = is_array o ∧ props_of o ⊆ props_of o' ∧
        elems_of o' = if decide (l = t) then elems_of o ++ [s] else elems_of o.
Proof.
  intros Ht Hl. destruct (decide (l = t)) as [->|Hne].
  - rewrite lookup_insert_eq. eexists; split; [done|].
    rewrite Ht in Hl. by injection Hl as <-.
  - rewrite lookup_insert_ne by done. by exists o.
Qed.

Lemma closed_push h t ms ps s :
  closed h → h !! t = Some (Arr ms ps) → closed (<[t := Arr (ms ++ [s]) ps]> h).
Proof.
  intros Hc Ht l o Hl k l' Hk.
  assert (∃ o0, h !! l = Some o0 ∧ props_of o0 = props_of o) as (o0 & Ho0 & Hp0).
  { destruct (decide (l = t)) as [->|Hne].
    - rewrite lookup_insert_eq in Hl. injection Hl as <-. by eexists.
    - rewrite lookup_insert_ne in Hl by done. by eexists. }
  rewrite <- Hp0 in Hk. destruct (closed_lookup _ _ _ _ _ Hc Ho0 Hk) as [o1 Ho1].
  destruct (extends_push h t ms ps s l' o1 Ht Ho1) as (? & ? & _). by eexists.
Qed.

Lemma walk_props_grow h h' l p l' :
  (∀ l o, h !! l = Some o → ∃ o', h' !! l = Some o' ∧ props_of o ⊆ props_of o') →
  walk h l p = Some l' → walk h' l p = Some l'.
Proof.
  intros Hext. revert l. induction p as [|k p IH]; intros l; simpl; [done|].
  destruct (h !! l) as [o|] eqn:Hl; [|done].
  destruct (props_of o !! k) as [l1|] eqn:Hk; [|done].
  destruct (Hext l o Hl) as (o' & -> & Hsub).
  rewrite (lookup_weaken _ _ _ _ Hk Hsub). apply IH.
Qed.

Lemma walk_push h t es ps s l p l' :
  h !! t = Some (Arr es ps) →
  walk h l p = Some l' → walk (<[t := Arr (es ++ [s]) ps]> h) l p = Some l'.
Proof.
  intros Ht. apply walk_props_grow. intros l0 o0 Hl0.
  destruct (extends_push h t es ps s l0 o0 Ht Hl0) as (o' & ? & _ & ? & _).
  by exists o'.
Qed.

Lemma save_document h errorMap fe de msg :
  error_map h errorMap fe de →
  saveToPath [] msg (Some errorMap) h = Js.push (Some de) msg h.
Proof.
  intros (o & Ho & Hfe & Hde). unfold saveToPath.
  rewrite (bind_Ret _ _ h (Some fe) h) by (by rewrite (get_Some _ _ o), Hfe).
  rewrite bool_decide_eq_false_2 by (simpl; lia).
  by rewrite (bind_Ret _ _ h (Some de) h) by (by rewrite (get_Some _ _ o), Hde).
Qed.

Lemma save_field h errorMap fe de path msg :
  error_map h errorMap fe de → path ≠ [] →
  saveToPath path msg (Some errorMap) h
  = (target <- resolveOrCreateTargetFromPath (Some fe) path ;;
     Js.push target msg) h.
Proof.
  intros (o & Ho & Hfe & Hde) Hpath. unfold saveToPath.
  rewrite (bind_Ret _ _ h (Some fe) h) by (by rewrite (get_Some _ _ o), Hfe).
  rewrite bool_decide_eq_true_2; [done|].
  destruct path; [done|simpl; lia].
Qed.

(** The whole effect of [saveToPath] on a closed store. *)
Lemma save_spec h errorMap fe de path msg :
  closed h → error_map h errorMap fe de → own_names path = true →
  (∃ h' t ps,
      saveToPath path msg (Some errorMap) h = Ret tt h' ∧
      closed h' ∧
      (if decide (path = []) then t = de else walk h' fe path = Some t) ∧
      h' !! t = Some (Arr (stored h t ++ [msg]) ps) ∧
      (∀ l o, h !! l = Some o →
         ∃ o', h' !! l = Some o' ∧ is_array o' = is_array o ∧
               props_of o ⊆ props_of o' ∧
               elems_of o' = if decide (l = t) then elems_of o ++ [msg]
                             else elems_of o) ∧
      (∀ r q l, walk h r q = Some l → walk h' r q = Some l))
  ∨ (∃ t ps,
      saveToPath path msg (Some errorMap) h = Throw TypeError h ∧
      (if decide (path = []) then t = de else walk h fe path = Some t) ∧
      h !! t = Some (Obj ps)).
Proof.
  intros Hc Hmap Hown.
  assert (is_Some (h !! fe) ∧ is_Some (h !! de)) as [Hfe Hde].
  { destruct Hmap as (o & Ho & ? & ?). split; by eapply closed_lookup. }
  assert (∀ h1 t es ps, closed h1 → h1 !! t = Some (Arr es ps) →
            closed (<[t := Arr (es ++ [msg]) ps]> h1)) as Hcpush
    by (intros; by apply closed_push).
  destruct (decide (path = [])) as [->|Hpath].
  - rewrite (save_document h errorMap fe de) by done.
    destruct Hde as [[ps|es ps] Hde].
    + right. exists de, ps. by rewrite (push_object h de ps).
    + left. exists (<[de := Arr (es ++ [msg]) ps]> h), de, ps.
      rewrite (push_array h de es ps) by done.
      split_and!; [done|by apply Hcpush|done| |by intros; eapply extends_push|
                   by intros; eapply walk_push].
      rewrite lookup_insert_eq. unfold stored. by rewrite Hde.
  - rewrite (save_field h errorMap fe de) by done.
    destruct (resolve_spec path h fe Hc Hfe Hown)
      as (t & h1 & Hrun & Hc1 & Hext & Hw & Hnew & _ & _).
    rewrite (bind_Ret _ _ h (Some t) h1) by done.
    assert (∀ es ps, h1 !! t = Some (Arr es ps) → stored h t = es →
      ∃ h' t0 ps0,
        Js.push (Some t) msg h1 = Ret tt h' ∧ closed h' ∧
        walk h' fe path = Some t0 ∧
        h' !! t0 = Some (Arr (stored h t0 ++ [msg]) ps0) ∧
        (∀ l o, h !! l = Some o →
           ∃ o', h' !! l = Some o' ∧ is_array o' = is_array o ∧
                 props_of o ⊆ props_of o' ∧
                 elems_of o' = if decide (l = t0) then elems_of o ++ [msg]
                               else elems_of o) ∧
        (∀ r q l, walk h r q = Some l → walk h' r q = Some l)) as Hpush.
    { intros es ps Ht Hes.
      exists (<[t := Arr (es ++ [msg]) ps]> h1), t, ps.
      rewrite (push_array h1 t es ps) by done.
      split_and!; [done|by apply Hcpush|by eapply walk_push| | |].
      - rewrite lookup_insert_eq. by rewrite Hes.
      - intros l o Hl. destruct (Hext l o Hl) as (o1 & Hl1 & Ha1 & He1 & Hp1).
        destruct (extends_push h1 t es ps msg l o1 Ht Hl1) as (o' & Hl' & Ha' & Hp' & He').
        exists o'. split_and!; [done|congruence|by etrans|].
        rewrite He'. by rewrite He1.
      - intros r q l Hq. eapply walk_push; [done|]. by eapply walk_extends. }
    destruct Hnew as [[-> Hw0]|[Hnone Hnew]].
    + destruct (walk_allocated h fe path t Hc Hfe Hw0) as [[ps|es ps] Ht].
      * right. exists t, ps. by rewrite (push_object h t ps).
      * left. apply (Hpush es ps Ht). unfold stored. by rewrite Ht.
    + left. apply (Hpush [] ∅ Hnew). unfold stored. by rewrite Hnone.
Qed.

End SaveToPath.

(** ** Stores that are trees *)

Section Trees.
Implicit Types (h : heap) (l fe target : loc) (o : object) (rest : list string).

Import Validator.

(** Hanging a new node without properties under a missing property of a node
    of the tree adds one path to the tree and nothing else. *)
Lemma add_leaf_walk h fe q0 target o segment n new :
  closed h → is_Some (h !! fe) → tree_shaped h fe →
  walk h fe q0 = Some target → h !! target = Some o →
  props_of o !! segment = None → h !! n = None → props_of new = ∅ →
  ∀ q l, walk (<[target := set_prop o segment n]> (<[n := new]> h)) fe q = Some l →
         walk h fe q = Some l ∨ (q = q0 ++ [segment] ∧ l = n).
Proof.
  intros Hc Hfe Htree Hq0 Htarget Hk Hn Hnew.
  set (h2 := <[target := set_prop o segment n]> (<[n := new]> h)).
  assert (target ≠ n) as Hne by congruence.
  assert (h2 !! n = Some new) as Hn2.
  { unfold h2. rewrite lookup_insert_ne by done. apply lookup_insert_eq. }
  cut (∀ q x0 a l, walk h fe x0 = Some a → walk h2 a q = Some l →
         walk h a q = Some l ∨ (x0 ++ q = q0 ++ [segment] ∧ l = n)).
  { intros Hgen q l Hq. by apply (Hgen q [] fe l). }
  induction q as [|k q IH]; intros x0 a l Hx0 Hq.
  { left. done. }
  assert (is_Some (h !! a)) as [oa Hoa] by by eapply walk_allocated.
  assert (a ≠ n) as Han by congruence.
  simpl in Hq. simpl. rewrite Hoa.
  destruct (decide (a = target)) as [->|Hat].
  - unfold h2 in Hq at 1. rewrite lookup_insert_eq, props_set_prop in Hq.
    assert (oa = o) as -> by congruence.
    destruct (decide (k = segment)) as [->|Hks].
    + rewrite lookup_insert_eq in Hq. right.
      destruct q as [|k' q'].
      * simpl in Hq. injection Hq as <-. split; [|done].
        by rewrite (Htree x0 q0 target Hx0 Hq0).
      * simpl in Hq. rewrite Hn2, Hnew, lookup_empty in Hq. done.
    + rewrite lookup_insert_ne in Hq by done.
      destruct (props_of o !! k) as [a'|] eqn:Hk'; [|done].
      destruct (IH (x0 ++ [k]) a' l) as [?|[Heq ->]]; [|done|by left|].
      * rewrite walk_app, Hx0. simpl. by rewrite Htarget, Hk'.
      * right. split; [|done]. by rewrite <- Heq, <- app_assoc.
  - unfold h2 in Hq at 1. rewrite lookup_insert_ne in Hq by done.
    rewrite lookup_insert_ne, Hoa in Hq by done.
    destruct (props_of oa !! k) as [a'|] eqn:Hk'; [|done].
    destruct (IH (x0 ++ [k]) a' l) as [?|[Heq ->]]; [|done|by left|].
    * rewrite walk_app, Hx0. simpl. by rewrite Hoa, Hk'.
    * right. split; [|done]. by rewrite <- Heq, <- app_assoc.
Qed.

Lemma add_leaf_tree h fe q0 target o segment n new :
  closed h → is_Some (h !! fe) → tree_shaped h fe →
  walk h fe q0 = Some target → h !! target = Some o →
  props_of o !! segment = None → h !! n = None → props_of new = ∅ →
  tree_shaped (<[target := set_prop o segment n]> (<[n := new]> h)) fe.
Proof.
  intros Hc Hfe Htree Hq0 Htarget Hk Hn Hnew p q l Hp Hq.
  pose proof (add_leaf_walk h fe q0 target o segment n new
                Hc Hfe Htree Hq0 Htarget Hk Hn Hnew) as Hw.
  destruct (Hw p l Hp) as [Hp'|[Hpe Hpl]], (Hw q l Hq) as [Hq'|[Hqe Hql]].
  - by eapply Htree.
  - subst l. destruct (walk_allocated h fe p n Hc Hfe Hp') as [? ?]. congruence.
  - subst l. destruct (walk_allocated h fe q n Hc Hfe Hq') as [? ?]. congruence.
  - congruence.
Qed.

(** The loop on a tree: the result is a tree, every path of the result is a
    path of the tree it started from or leads to a new node along the
    requested path, and the objects outside the tree are untouched. *)
Lemma resolve_tree rest : ∀ h fe q0 target node h',
  closed h → is_Some (h !! fe) → tree_shaped h fe →
  walk h fe q0 = Some target →
  resolveOrCreateTargetFromPath (Some target) rest h = Ret (Some node) h' →
  own_names rest = true →
  tree_shaped h' fe ∧
  (∀ q l, walk h' fe q = Some l →
     walk h fe q = Some l ∨ (h !! l = None ∧ q `prefix_of` q0 ++ rest)) ∧
  (∀ l o, h !! l = Some o →
     h' !! l = Some o ∨ ∃ q, walk h fe q = Some l).
Proof.
  induction rest as [|segment rest IH];
    intros h fe q0 target node h' Hc Hfe Htree Hq0 Hrun Hown.
  { simpl in Hrun. injection Hrun as <- <-. split_and!; [done|by left|by left]. }
  apply own_names_cons in Hown as [Hsegment Hrest].
  destruct (walk_allocated h fe q0 target Hc Hfe Hq0) as [o Ho].
  destruct (props_of o !! segment) as [l1|] eqn:Hk.
  - rewrite (resolve_present h target o segment l1) in Hrun by done.
    assert (walk h fe (q0 ++ [segment]) = Some l1) as Hq1.
    { rewrite walk_app, Hq0. simpl. by rewrite Ho, Hk. }
    destruct (IH h fe (q0 ++ [segment]) l1 node h' Hc Hfe Htree Hq1 Hrun Hrest)
      as (Htree' & Hw & Hf).
    split_and!; [done| |done].
    intros q l Hq. destruct (Hw q l Hq) as [?|[? Hpre]]; [by left|right].
    split; [done|]. by rewrite <- app_assoc in Hpre.
  - rewrite (resolve_missing h target o segment) in Hrun by done.
    set (n0 := fresh (dom h)) in *.
    assert (h !! n0 = None) as Hn0 by apply fresh_unused.
    assert (target ≠ n0) as Hne by congruence.
    set (h2 := <[target := set_prop o segment n0]> (<[n0 := new_node rest]> h)) in *.
    assert (closed h2) as Hc2
      by (apply closed_add_leaf; [done..|apply new_node_props]).
    assert (extends h h2) as Hext2 by by apply extends_add_leaf.
    pose proof (add_leaf_walk h fe q0 target o segment n0 (new_node rest)
                  Hc Hfe Htree Hq0 Ho Hk Hn0 (new_node_props rest)) as Hw2.
    pose proof (add_leaf_tree h fe q0 target o segment n0 (new_node rest)
                  Hc Hfe Htree Hq0 Ho Hk Hn0 (new_node_props rest)) as Htree2.
    assert (is_Some (h2 !! fe)) as Hfe2.
    { destruct Hfe as [ofe Hofe]. destruct (Hext2 _ _ Hofe) as (? & ? & _). by eexists. }
    assert (walk h2 fe (q0 ++ [segment]) = Some n0) as Hq1.
    { rewrite walk_app, (walk_extends h h2 fe q0 target Hext2 Hq0). simpl.
      unfold h2 at 1. by rewrite lookup_insert_eq, props_set_prop, lookup_insert_eq. }
    destruct (IH h2 fe (q0 ++ [segment]) n0 node h' Hc2 Hfe2 Htree2 Hq1 Hrun Hrest)
      as (Htree' & Hw & Hf).
    split_and!; [done| |].
    + intros q l Hq. destruct (Hw q l Hq) as [Hq2|[Hl2 Hpre]].
      * destruct (Hw2 q l Hq2) as [?|[-> ->]]; [by left|right].
        split; [done|]. by apply prefix_app, prefix_cons, prefix_nil.
      * right. split; [|by rewrite <- app_assoc in Hpre].
        destruct (h !! l) as [ol|] eqn:Hol; [|done].
        destruct (Hext2 _ _ Hol) as (? & ? & _). congruence.
    + intros l ol Hol.
      destruct (decide (l = target)) as [->|Hlt]; [right; by exists q0|].
      assert (h2 !! l = Some ol) as Hol2.
      { unfold h2. rewrite lookup_insert_ne by done.
        rewrite lookup_insert_ne by congruence. done. }
      destruct (Hf l ol Hol2) as [?|[q Hq]]; [by left|right].
      destruct (Hw2 q l Hq) as [?|[_ ->]]; [by exists q|congruence].
Qed.

End Trees.

(** ** The report under construction *)

Section Report.
Implicit Types (h : heap) (l t root fe de : loc) (o : object).
Implicit Types (e : raw_error) (es : list raw_error) (q : list string).

Import Validator.

Lemma walk_push_eq h t ms ps s l q :
  h !! t = Some (Arr ms ps) →
  walk (<[t := Arr (ms ++ [s]) ps]> h) l q = walk h l q.
Proof.
  intros Ht. revert l. induction q as [|k q IH]; intros l; simpl; [done|].
  destruct (decide (l = t)) as [->|Hne].
  - rewrite lookup_insert_eq, Ht. simpl. destruct (ps !! k); [apply IH|done].
  - rewrite lookup_insert_ne by done.
    destruct (h !! l) as [o|]; [|done]. destruct (props_of o !! k); [apply IH|done].
Qed.

Lemma stored_push h t ms ps s l :
  h !! t = Some (Arr ms ps) →
  stored (<[t := Arr (ms ++ [s]) ps]> h) l
  = if decide (l = t) then stored h l ++ [s] else stored h l.
Proof.
  intros Ht. unfold stored. destruct (decide (l = t)) as [->|Hne].
  - by rewrite lookup_insert_eq, Ht.
  - by rewrite lookup_insert_ne.
Qed.

Lemma stored_extends h h' l :
  extends h h' → is_Some (h !! l) → stored h' l = stored h l.
Proof.
  intros Hext [o Ho]. destruct (Hext l o Ho) as (o' & Ho' & _ & He & _).
  unfold stored. by rewrite Ho, Ho'.
Qed.

Lemma messages_at_snoc q es e :
  messages_at q (es ++ [e])
  = messages_at q es ++ (if decide (extractPathSegments e = q) then [message e] else []).
Proof.
  unfold messages_at. rewrite filter_app, fmap_app. f_equal.
  rewrite filter_cons, filter_nil. by destruct (decide _).
Qed.

Lemma messages_at_absent q es :
  (∀ e, e ∈ es → extractPathSegments e ≠ q) → messages_at q es = [].
Proof.
  intros Hno. unfold messages_at. induction es as [|e es IH]; [done|].
  rewrite filter_cons. destruct (decide _) as [Heq|_].
  - destruct (Hno e); [by left|done].
  - apply IH. intros e' He'. apply Hno. by right.
Qed.

(** The store once [sanitizeValidationErrors] has built the empty report. *)
Lemma sanitize_start errors h0 :
  closed h0 →
  ∃ root fe de h,
    sanitizeValidationErrors errors h0
    = (Js.each errors (λ error, sanitizeError error (Some root)) ;;
       ret (Some root)) h ∧
    report_inv [] h root fe de.
Proof.
  intros Hc0.
  set (de := fresh (dom h0)). set (h1 := <[de := Arr [] ∅]> h0).
  set (fe := fresh (dom h1)). set (h2 := <[fe := Obj ∅]> h1).
  set (root := fresh (dom h2)).
  set (oroot := Obj (<["documentErrors" := de]> (<["fieldErrors" := fe]> ∅))).
  set (h := <[root := oroot]> h2).
  assert (h0 !! de = None) as Hde0 by apply fresh_unused.
  assert (h1 !! fe = None) as Hfe1 by apply fresh_unused.
  assert (h2 !! root = None) as Hroot2 by apply fresh_unused.
  assert (fe ≠ de) as Hfd.
  { intros Heq. unfold h1 in Hfe1. by rewrite Heq, lookup_insert_eq in Hfe1. }
  assert (root ≠ fe) as Hrf.
  { intros Heq. unfold h2 in Hroot2. by rewrite Heq, lookup_insert_eq in Hroot2. }
  assert (root ≠ de) as Hrd.
  { intros Heq. unfold h2, h1 in Hroot2.
    rewrite Heq, lookup_insert_ne, lookup_insert_eq in Hroot2; done. }
  assert (h !! root = Some oroot) as Hroot by apply lookup_insert_eq.
  assert (h !! fe = Some (Obj ∅)) as Hfe.
  { unfold h, h2. by rewrite lookup_insert_ne, lookup_insert_eq. }
  assert (h !! de = Some (Arr [] ∅)) as Hde.
  { unfold h, h2, h1. rewrite lookup_insert_ne by done.
    rewrite lookup_insert_ne by done. apply lookup_insert_eq. }
  assert (∀ l o, h0 !! l = Some o → h !! l = Some o) as Hold.
  { intros l o Hl.
    assert (h1 !! l = Some o) as Hl1
      by (unfold h1; rewrite lookup_insert_ne; [done|congruence]).
    assert (h2 !! l = Some o) as Hl2
      by (unfold h2; rewrite lookup_insert_ne; [done|congruence]).
    unfold h. rewrite lookup_insert_ne; [done|congruence]. }
  assert (∀ q l, walk h fe q = Some l → q = [] ∧ l = fe) as Hwalk.
  { intros [|k q] l; simpl; [by intros [= <-]|]. by rewrite Hfe. }
  exists root, fe, de, h. split; [done|]. split.
  - intros l o Hl k l' Hk.
    destruct (decide (l = root)) as [->|Hlr].
    { assert (o = oroot) as -> by congruence. simpl in Hk.
      destruct (decide (k = "documentErrors")) as [->|Hkd].
      - rewrite lookup_insert_eq in Hk. injection Hk as <-. by eexists.
      - rewrite lookup_insert_ne in Hk by done.
        destruct (decide (k = "fieldErrors")) as [->|Hkf].
        + rewrite lookup_insert_eq in Hk. injection Hk as <-. by eexists.
        + by rewrite lookup_insert_ne in Hk. }
    destruct (decide (l = fe)) as [->|Hlf].
    { assert (o = Obj ∅) as -> by congruence. done. }
    destruct (decide (l = de)) as [->|Hld].
    { assert (o = Arr [] ∅) as -> by congruence. done. }
    unfold h, h2, h1 in Hl. rewrite !lookup_insert_ne in Hl by done.
    destruct (closed_lookup _ _ _ _ _ Hc0 Hl Hk) as [o' Ho']. eexists. by apply Hold.
  - done.
  - by eexists.
  - intros p q l Hp Hq. destruct (Hwalk p l Hp) as [-> _], (Hwalk q l Hq) as [-> _]. done.
  - intros q Hq. destruct (Hwalk q de Hq) as [_ ?]. done.
  - intros q Hq. destruct (Hwalk q root Hq) as [_ ?]. done.
  - done.
  - intros q l Hq Hw. by destruct (Hwalk q l Hw).
  - intros e He. by apply elem_of_nil in He.
  - intros q l ps Hq Hw. by destruct (Hwalk q l Hw).
Qed.

(** Saving one more error keeps the invariant, unless the error is reported
    at a path below which an earlier error was saved and at which none
    was: the node there is an object, and [push] fails. *)
Lemma sanitizeError_inv es e h root fe de :
  report_inv es h root fe de → own_names (extractPathSegments e) = true →
  (∃ h', sanitizeError e (Some root) h = Ret tt h' ∧
         report_inv (es ++ [e]) h' root fe de)
  ∨ (sanitizeError e (Some root) h = Throw TypeError h ∧ late_parent es e).
Proof.
  intros [Hc Hroot Hfe Htree Hdoc_ap Hroot_ap Hdoc Hmsg Harr Hobj] Hown.
  assert (error_map h root fe de) as Hmap.
  { eexists. split; [done|]. simpl. split.
    - by rewrite lookup_insert_ne, lookup_insert_eq.
    - apply lookup_insert_eq. }
  assert (de ≠ root) as Hdr by (intros ->; congruence).
  unfold sanitizeError. set (p := extractPathSegments e) in *.
  set (msg := message e).
  destruct (decide (p = [])) as [Hp|Hp].
  - (* a document error *)
    rewrite Hp, (save_document h root fe de) by done.
    rewrite (push_array h de _ _ msg Hdoc). left. eexists. split; [done|].
    assert (∀ l q, walk (<[de := Arr (messages_at [] es ++ [msg]) ∅]> h) l q
                   = walk h l q) as Hwe by (intros; by apply walk_push_eq).
    split.
    + by apply closed_push.
    + by rewrite lookup_insert_ne.
    + destruct Hfe as [o Ho].
      destruct (extends_push h de _ _ msg fe o Hdoc Ho) as (? & ? & _). by eexists.
    + intros p1 q l. rewrite !Hwe. apply Htree.
    + intros q. rewrite Hwe. apply Hdoc_ap.
    + intros q. rewrite Hwe. apply Hroot_ap.
    + rewrite lookup_insert_eq, messages_at_snoc. fold p msg.
      by rewrite decide_True.
    + intros q l Hq. rewrite Hwe. intros Hw.
      rewrite stored_push, messages_at_snoc by done. fold p.
      rewrite (decide_False (P := p = q)), app_nil_r by congruence.
      destruct (decide (l = de)) as [->|_]; [by destruct (Hdoc_ap q)|by apply Hmsg].
    + intros e' He' Hp'. apply elem_of_app in He' as [He'|He'].
      * destruct (Harr e' He' Hp') as (l & ms & ps & Hw & Hl).
        exists l, ms, ps. rewrite Hwe. split; [done|].
        rewrite lookup_insert_ne; [done|]. intros ->. by destruct (Hdoc_ap _ Hw).
      * apply list_elem_of_singleton in He' as ->. done.
    + intros q l ps Hq. rewrite Hwe. intros Hw Hl.
      assert (l ≠ de) as Hld by (intros ->; by destruct (Hdoc_ap q)).
      rewrite lookup_insert_ne in Hl by done.
      destruct (Hobj q l ps Hq Hw Hl) as (e0 & He0 & ?).
      exists e0. split; [apply elem_of_app; by left|done].
  - (* a field error *)
    rewrite (save_field h root fe de p msg Hmap Hp).
    destruct (resolve_spec p h fe Hc Hfe Hown)
      as (t & h1 & Hrun & Hc1 & Hext & Hw & Hnew & Hempty & _).
    rewrite (bind_Ret _ _ h (Some t) h1 Hrun).
    destruct (resolve_tree p h fe [] fe t h1 Hc Hfe Htree eq_refl Hrun Hown)
      as (Htree1 & Hw1 & Hf1).
    assert (is_Some (h1 !! fe)) as Hfe1.
    { destruct Hfe as [o Ho]. destruct (Hext _ _ Ho) as (? & ? & _). by eexists. }
    assert (is_Some (h1 !! t)) as Ht1 by by eapply walk_allocated.
    assert (∀ q l, walk h1 fe q = Some l → is_Some (h !! l) → walk h fe q = Some l)
      as Hap1.
    { intros q l Hq [o Ho]. destruct (Hw1 q l Hq) as [?|[? _]]; [done|congruence]. }
    assert (∀ q l, q ≠ [] → walk h1 fe q = Some l → stored h1 l = messages_at q es)
      as Hst1.
    { intros q l Hq Hwq. destruct (Hw1 q l Hwq) as [Hold|[Hnone Hpre]].
      - rewrite (stored_extends h h1); [by apply Hmsg|done|by eapply walk_allocated].
      - destruct (walk_allocated h1 fe q l Hc1 Hfe1 Hwq) as [o Ho].
        unfold stored. rewrite Ho. simpl. rewrite (Hempty l o Hnone Ho).
        symmetry. apply messages_at_absent. intros e' He' Heq.
        destruct (Harr e' He') as (l' & ms & ps & Hw' & Hl'); [by rewrite Heq|].
        rewrite Heq in Hw'.
        pose proof (walk_extends h h1 fe q l' Hext Hw') as Hw''. congruence. }
    assert (h1 !! root = h !! root) as Hroot1.
    { destruct (Hf1 _ _ Hroot) as [?|[q Hq]]; [congruence|by destruct (Hroot_ap q)]. }
    assert (h1 !! de = h !! de) as Hde1.
    { destruct (Hf1 _ _ Hdoc) as [?|[q Hq]]; [congruence|by destruct (Hdoc_ap q)]. }
    assert (t ≠ root) as Htr.
    { intros ->. destruct (Hroot_ap p). apply Hap1; [done|by eexists]. }
    assert (t ≠ de) as Htd.
    { intros ->. destruct (Hdoc_ap p). apply Hap1; [done|by eexists]. }
    destruct Ht1 as [[ps|ms ps] Ht1].
    + (* the node is an object *)
      right. rewrite (push_object h1 t ps msg Ht1).
      destruct Hnew as [[-> Hw0]|[_ Hn]]; [|congruence].
      split; [done|]. split; [done|]. apply Exists_exists.
      destruct (Hobj p t ps Hp Hw0 Ht1) as (e0 & He0 & ?). by exists e0.
    + left. rewrite (push_array h1 t ms ps msg Ht1). eexists. split; [done|].
      assert (∀ l q, walk (<[t := Arr (ms ++ [msg]) ps]> h1) l q = walk h1 l q)
        as Hwe by (intros; by apply walk_push_eq).
      split.
      * by apply closed_push.
      * rewrite lookup_insert_ne by done. congruence.
      * destruct Hfe1 as [o Ho].
        destruct (extends_push h1 t ms ps msg fe o Ht1 Ho) as (? & ? & _). by eexists.
      * intros p1 q l. rewrite !Hwe. apply Htree1.
      * intros q. rewrite Hwe. intros Hq. apply (Hdoc_ap q).
        apply Hap1; [done|by eexists].
      * intros q. rewrite Hwe. intros Hq. apply (Hroot_ap q).
        apply Hap1; [done|by eexists].
      * rewrite lookup_insert_ne, Hde1, Hdoc, messages_at_snoc by done. fold p.
        by rewrite decide_False, app_nil_r.
      * intros q l Hq. rewrite Hwe. intros Hwq.
        rewrite stored_push, messages_at_snoc, (Hst1 q l Hq Hwq) by done. fold p msg.
        destruct (decide (l = t)) as [->|Hlt].
        -- by rewrite (Htree1 q p t Hwq Hw), decide_True.
        -- rewrite decide_False, app_nil_r; [done|]. intros <-. congruence.
      * intros e' He' Hp'. apply elem_of_app in He' as [He'|He'].
        -- destruct (Harr e' He' Hp') as (l & ms' & ps' & Hw' & Hl').
           destruct (Hext _ _ Hl') as (o1 & Ho1 & Ha1 & _).
           destruct (extends_push h1 t ms ps msg l o1 Ht1 Ho1) as (o' & Ho' & Ha' & _).
           rewrite Ha1 in Ha'. destruct o' as [|ms'' ps'']; [done|].
           exists l, ms'', ps''. rewrite Hwe. split; [by eapply walk_extends|done].
        -- apply list_elem_of_singleton in He' as ->.
           exists t, (ms ++ [msg]), ps. rewrite Hwe. split; [done|].
           apply lookup_insert_eq.
      * intros q l ps' Hq. rewrite Hwe. intros Hwq Hl'.
        assert (l ≠ t) as Hlt by (intros ->; by rewrite lookup_insert_eq in Hl').
        rewrite lookup_insert_ne in Hl' by done.
        destruct (Hw1 q l Hwq) as [Hold|[Hnone Hpre]].
        -- destruct (walk_allocated h fe q l Hc Hfe Hold) as [o Ho].
           destruct (Hext _ _ Ho) as (o1 & Ho1 & Ha1 & _).
           assert (o1 = Obj ps') as -> by congruence.
           destruct o as [ps0|]; [|done].
           destruct (Hobj q l ps0 Hq Hold Ho) as (e0 & He0 & ?).
           exists e0. split; [apply elem_of_app; by left|done].
        -- exists e. split; [apply elem_of_app; right; by apply list_elem_of_singleton|].
           fold p. split; [done|]. intros ->. congruence.
Qed.

Lemma each_inv es2 : ∀ es1 h root fe de,
  report_inv es1 h root fe de → own_paths es2 = true →
  (∃ h', Js.each es2 (λ error, sanitizeError error (Some root)) h = Ret tt h' ∧
         report_inv (es1 ++ es2) h' root fe de)
  ∨ (∃ h' pre e post,
       Js.each es2 (λ error, sanitizeError error (Some root)) h = Throw TypeError h' ∧
       es2 = pre ++ e :: post ∧ late_parent (es1 ++ pre) e).
Proof.
  induction es2 as [|e es2 IH]; intros es1 h root fe de Hinv Hown.
  { left. exists h. rewrite app_nil_r. done. }
  apply own_paths_cons in Hown as [He Hes2].
  cbn [Js.each].
  destruct (sanitizeError_inv es1 e h root fe de Hinv He)
    as [(h1 & Hrun & Hinv1)|(Hrun & Hlate)].
  - rewrite (bind_Ret _ _ h tt h1 Hrun).
    destruct (IH (es1 ++ [e]) h1 root fe de Hinv1 Hes2)
      as [(h' & Hrun' & Hinv')|(h' & pre & e' & post & Hrun' & -> & Hlate)].
    + left. exists h'. by rewrite <- app_assoc in Hinv'.
    + right. exists h', (e :: pre), e', post.
      split_and!; [done|done|]. by rewrite <- app_assoc in Hlate.
  - right. exists h, [], e, es2. unfold bind. rewrite Hrun.
    split_and!; [done|done|]. by rewrite app_nil_r.
Qed.

Lemma parents_first_split pre : ∀ earlier e post,
  parents_first earlier (pre ++ e :: post) → ¬ late_parent (earlier ++ pre) e.
Proof.
  induction pre as [|e1 pre IH]; intros earlier e post.
  - simpl. rewrite app_nil_r. by intros [? _].
  - simpl. intros [_ Hrest]. rewrite (cons_middle e1 earlier pre), app_assoc.
    by eapply IH.
Qed.

(** The report [sanitizeValidationErrors] returns. *)
Lemma sanitize_report errors h0 :
  closed h0 → own_paths errors = true →
  (∃ root fe de h,
     sanitizeValidationErrors errors h0 = Ret (Some root) h ∧
     report_inv errors h root fe de)
  ∨ (∃ h pre e post,
       sanitizeValidationErrors errors h0 = Throw TypeError h ∧
       errors = pre ++ e :: post ∧ late_parent pre e).
Proof.
  intros Hc0 Hown.
  destruct (sanitize_start errors h0 Hc0) as (root & fe & de & h & -> & Hinv).
  destruct (each_inv errors [] h root fe de Hinv Hown)
    as [(h' & Hrun & Hinv')|(h' & pre & e & post & Hrun & -> & Hlate)].
  - left. exists root, fe, de, h'. by rewrite (bind_Ret _ _ h tt h' Hrun).
  - right. exists h', pre, e, post. unfold bind. by rewrite Hrun.
Qed.

Lemma report_field es h root fe de q :
  report_inv es h root fe de →
  walk h root ("fieldErrors" :: q) = walk h fe q.
Proof.
  intros Hinv. simpl. rewrite (inv_root _ _ _ _ _ Hinv). simpl.
  by rewrite lookup_insert_ne, lookup_insert_eq.
Qed.

Lemma report_document es h root fe de :
  report_inv es h root fe de →
  walk h root ["documentErrors"] = Some de.
Proof.
  intros Hinv. simpl. rewrite (inv_root _ _ _ _ _ Hinv). simpl.
  by rewrite lookup_insert_eq.
Qed.

Lemma report_array es h root fe de e :
  report_inv es h root fe de → e ∈ es → extractPathSegments e ≠ [] →
  ∃ t ps, walk h fe (extractPathSegments e) = Some t ∧
          h !! t = Some (Arr (messages_at (extractPathSegments e) es) ps).
Proof.
  intros Hinv He Hp.
  destruct (inv_arrays _ _ _ _ _ Hinv e He Hp) as (t & ms & ps & Hw & Ht).
  exists t, ps. split; [done|].
  rewrite <- (inv_messages _ _ _ _ _ Hinv _ t Hp Hw). unfold stored. by rewrite Ht.
Qed.

End Report.

(** ** The path resolver and the frame of [saveToPath] *)

(** X12: for a path of names read as own properties,
    [resolveOrCreateTargetFromPath] returns the node found at the full path
    from the tree it was given.  Every prefix of the path that led nowhere
    before leads afterwards to a node that did not exist: an empty array for
    the full path, an object (not an array, no elements) for a proper prefix.
    Whatever was reachable before is reached at the same reference, and
    every object of the store keeps its kind, its elements and its
    properties. *)
Theorem resolveOrCreate_returns_node_at_path
    (h : heap) (target : loc) (path : list string) :
  own_names path = true → closed h → is_Some (h !! target) →
  ∃ node h',
    Validator.resolveOrCreateTargetFromPath (Some target) path h
      = Ret (Some node) h' ∧
    walk h' target path = Some node ∧
    (∀ n, n < length path → walk h target (take (S n) path) = None →
       ∃ l o, walk h' target (take (S n) path) = Some l ∧
              h !! l = None ∧ h' !! l = Some o ∧
              if decide (S n = length path) then o = Arr [] ∅
              else is_array o = false ∧ elems_of o = []) ∧
    (∀ q l, walk h target q = Some l → walk h' target q = Some l) ∧
    extends h h'.
Proof.
  intros Hown Hc Ht.
  destruct (resolve_spec path h target Hc Ht Hown)
    as (node & h' & Hrun & _ & Hext & Hw & _ & _ & Hcr).
  exists node, h'. split_and!; [done|done| |by intros; eapply walk_extends|done].
  intros n Hn Hmiss. by apply Hcr.
Qed.

Lemma resolveOrCreate_returns_node_at_path_witness :
  ∃ node h',
    Validator.resolveOrCreateTargetFromPath (Some 3%positive)
      ["category1"; "nestedField1"] example_store = Ret (Some node) h' ∧
    walk h' 3%positive ["category1"; "nestedField1"] = Some node ∧
    (∀ n, n < 2 →
       walk example_store 3%positive (take (S n) ["category1"; "nestedField1"]) = None →
       ∃ l o, walk h' 3%positive (take (S n) ["category1"; "nestedField1"]) = Some l ∧
              example_store !! l = None ∧ h' !! l = Some o ∧
              if decide (S n = 2) then o = Arr [] ∅
              else is_array o = false ∧ elems_of o = []) ∧
    (∀ q l, walk example_store 3%positive q = Some l → walk h' 3%positive q = Some l) ∧
    extends example_store h'.
Proof.
  apply (resolveOrCreate_returns_node_at_path example_store 3%positive
           ["category1"; "nestedField1"]).
  - reflexivity.
  - apply (bool_decide_unpack _). vm_compute. exact I.
  - apply (bool_decide_unpack _). vm_compute. exact I.
Defined.

(** Where the node at the derived path is an object, nothing is appended:
    the call fails and the store is as it was. *)
Example save_at_object_fails :
  walk nested_store 1%positive ["fieldErrors"; "field1"] = Some 4%positive ∧
  nested_store !! 4%positive = Some (Obj (<["inner" := 5%positive]> ∅)) ∧
  Validator.saveToPath ["field1"] "m1" (Some 1%positive) nested_store
  = Throw TypeError nested_store.
Proof. split_and!; reflexivity. Qed.

(** X13: for a path of names read as own properties, saving a
    message keeps every object of the store with its kind and all its
    properties; its elements are unchanged, except that the one array found
    at the derived path ends with the new message after the messages it
    held.  Every reference reachable before is reached by the same path
    afterwards.  This is what the call does unless the node already found at
    the path is an object and not an array; then the call fails and leaves
    the store as it was. *)
Theorem saveToPath_only_appends
    (h : heap) (errorMap fe de : loc) (path : list string) (msg : string) :
  own_names path = true → closed h → error_map h errorMap fe de →
  let found := if decide (path = []) then Some de else walk h fe path in
  ((∀ t ps, found = Some t → h !! t ≠ Some (Obj ps)) →
   ∃ h' t ps,
     Validator.saveToPath path msg (Some errorMap) h = Ret tt h' ∧
     (if decide (path = []) then t = de else walk h' fe path = Some t) ∧
     h' !! t = Some (Arr (stored h t ++ [msg]) ps) ∧
     (∀ l o, h !! l = Some o →
        ∃ o', h' !! l = Some o' ∧ is_array o' = is_array o ∧
              props_of o ⊆ props_of o' ∧
              elems_of o' = if decide (l = t) then elems_of o ++ [msg]
                            else elems_of o) ∧
     (∀ r q l, walk h r q = Some l → walk h' r q = Some l)) ∧
  (∀ t ps, found = Some t → h !! t = Some (Obj ps) →
     Validator.saveToPath path msg (Some errorMap) h = Throw TypeError h).
Proof.
  intros Hown Hc Hmap found.
  destruct (save_spec h errorMap fe de path msg Hc Hmap Hown)
    as [(h' & t & ps & Hrun & _ & Ht & Hst & Hframe & Hwalk)|
        (t & ps & Hrun & Ht & Hobj)].
  - split.
    + intros _. by exists h', t, ps.
    + intros t0 ps0 Hfound Hobj. exfalso.
      assert (t0 = t) as ->.
      { unfold found in Hfound. destruct (decide (path = [])).
        - congruence.
        - apply Hwalk in Hfound. congruence. }
      destruct (Hframe t (Obj ps0) Hobj) as (o' & Ho' & Harr & _).
      rewrite Hst in Ho'. by injection Ho' as <-.
  - split.
    + intros Hnot. destruct (Hnot t ps); [|done].
      unfold found. by destruct (decide (path = [])); subst.
    + intros t0 ps0 _ _. done.
Qed.

Lemma saveToPath_only_appends_witness :
  ∃ h' t ps,
    Validator.saveToPath ["field1"] "m2" (Some 1%positive) example_store = Ret tt h' ∧
    (if decide (["field1"] = []) then t = 2%positive
     else walk h' 3%positive ["field1"] = Some t) ∧
    h' !! t = Some (Arr (stored example_store t ++ ["m2"]) ps) ∧
    (∀ l o, example_store !! l = Some o →
       ∃ o', h' !! l = Some o' ∧ is_array o' = is_array o ∧
             props_of o ⊆ props_of o' ∧
             elems_of o' = if decide (l = t) then elems_of o ++ ["m2"]
                           else elems_of o) ∧
    (∀ r q l, walk example_store r q = Some l → walk h' r q = Some l).
Proof.
  apply (saveToPath_only_appends example_store 1%positive 3%positive 2%positive
           ["field1"] "m2").
  - reflexivity.
  - apply (bool_decide_unpack _). vm_compute. exact I.
  - eexists. split_and!; [vm_compute; reflexivity|reflexivity|reflexivity].
  - intros t ps [= <-]. vm_compute. discriminate.
Defined.

(** ** The localizer *)

Example example_errors_report :
  read_outcome 4 (Validator.sanitizeValidationErrors example_errors ∅)
  = Some (TObj [("fieldErrors",
                 TObj [("shallowlyRequired", TArr ["m2"] []);
                       ("field1", TArr ["m1"; "m0"; "m1"] [])]);
                ("documentErrors", TArr ["m3"] [])]).
Proof. vm_compute. reflexivity. Qed.

(** Two errors at a field that come after an error below that field: the
    node of the field is an object, [push] fails and no report is returned. *)
Example parent_twice_fails :
  Validator.extractPathSegments <$> example_parent_twice
  = [["field1"; "inner"]; ["field1"]; ["field1"]] ∧
  ∃ h, Validator.sanitizeValidationErrors example_parent_twice ∅
       = Throw TypeError h.
Proof. split; [reflexivity|]. eexists. vm_compute. reflexivity. Qed.

(** X14: for errors whose path segments are read as own properties,
    when [sanitizeValidationErrors] returns, it returns a report in which the
    array found at the path of an error holds the messages of exactly the
    errors of the list that localize to that path, each once per error and in
    the order of the list, and [documentErrors] holds those of the errors
    without a path.  It does return when no error of the list is reported for
    a field after an error below that field. *)
Theorem messages_accumulate_in_encounter_order
    (errors : list raw_error) (h0 : heap) :
  own_paths errors = true → closed h0 →
  let reported root h :=
    (∃ de, walk h root ["documentErrors"] = Some de ∧
           h !! de = Some (Arr (messages_at [] errors) ∅)) ∧
    (∀ e, e ∈ errors → Validator.extractPathSegments e ≠ [] →
       ∃ t ps,
         walk h root ("fieldErrors" :: Validator.extractPathSegments e) = Some t ∧
         h !! t = Some (Arr (messages_at (Validator.extractPathSegments e) errors) ps)) in
  (∀ v h, Validator.sanitizeValidationErrors errors h0 = Ret v h →
     ∃ root, v = Some root ∧ reported root h) ∧
  (parents_first [] errors →
   ∃ root h, Validator.sanitizeValidationErrors errors h0 = Ret (Some root) h ∧
             reported root h).
Proof.
  intros Hown Hc0 reported.
  assert (∀ root fe de h, report_inv errors h root fe de → reported root h) as Hrep.
  { intros root fe de h Hinv. split.
    - exists de. split; [by eapply report_document|by destruct Hinv].
    - intros e He Hp. rewrite (report_field errors h root fe de) by done.
      by eapply report_array. }
  destruct (sanitize_report errors h0 Hc0 Hown)
    as [(root & fe & de & h & Hrun & Hinv)|(h & pre & e & post & Hrun & -> & Hlate)].
  - split.
    + intros v h1 Hrun1. rewrite Hrun in Hrun1. injection Hrun1 as <- <-.
      exists root. split; [done|by eapply Hrep].
    + intros _. exists root, h. split; [done|by eapply Hrep].
  - split.
    + intros v h1 Hrun1. by rewrite Hrun in Hrun1.
    + intros Hfirst. by apply parents_first_split in Hfirst.
Qed.

Lemma messages_accumulate_in_encounter_order_witness :
  ∃ root h,
    Validator.sanitizeValidationErrors example_errors ∅ = Ret (Some root) h ∧
    (∃ de, walk h root ["documentErrors"] = Some de ∧
           h !! de = Some (Arr (messages_at [] example_errors) ∅)) ∧
    (∀ e, e ∈ example_errors → Validator.extractPathSegments e ≠ [] →
       ∃ t ps,
         walk h root ("fieldErrors" :: Validator.extractPathSegments e) = Some t ∧
         h !! t = Some (Arr (messages_at (Validator.extractPathSegments e)
                                         example_errors) ps)).
Proof.
  apply (messages_accumulate_in_encounter_order example_errors ∅).
  - reflexivity.
  - apply (bool_decide_unpack _). vm_compute. exact I.
  - apply (bool_decide_unpack _). vm_compute. exact I.
Defined.

(** The messages kept for [field1] by the example: the repeated message is
    kept twice, in the order of the reports. *)
Example example_errors_field1 :
  messages_at ["field1"] example_errors = ["m1"; "m0"; "m1"].
Proof. reflexivity. Qed.

(** An error for a field after an error below that field. *)
Example late_parent_fails :
  ∃ h, Validator.sanitizeValidationErrors
         [RawError "OBJECT_MISSING_REQUIRED_PROPERTY" (Some ["deeplyRequired"])
            "Missing required property: deeplyRequired" "#/deep";
          RawError "OBJECT_ADDITIONAL_PROPERTIES" None
            "Additional properties not allowed" "#/deep"] ∅
       = Throw TypeError h.
Proof. eexists. vm_compute. reflexivity. Qed.

(** ** The component *)

(** ** What the localizer can throw *)

Section Throws.
Import Validator.

Lemma bind_type_errors {A B} (m : M A) (k : A → M B) :
  type_errors_only m → (∀ a, type_errors_only (k a)) → type_errors_only (bind m k).
Proof.
  intros Hm Hk h e h'. unfold bind. destruct (m h) as [a h1|e1 h1|] eqn:Hrun.
  - apply Hk.
  - intros [= <- <-]. by eapply Hm.
  - done.
Qed.

Lemma ret_type_errors {A} (a : A) : type_errors_only (ret a).
Proof. by intros h e h'. Qed.

Lemma throw_type_errors {A} : type_errors_only (@throw A TypeError).
Proof. intros h e h'. by intros [= <- _]. Qed.

Lemma deref_type_errors l : type_errors_only (Js.deref l).
Proof. intros h e h'. unfold Js.deref. by destruct (h !! l). Qed.

Lemma beyond_type_errors {A} : type_errors_only (@Js.beyond A).
Proof. by intros h e h'. Qed.

Lemma get_type_errors v k : type_errors_only (Js.get v k).
Proof.
  destruct v as [l|]; [|apply throw_type_errors]. simpl.
  destruct (own_name k); [|apply beyond_type_errors].
  apply bind_type_errors; [apply deref_type_errors|]. intros o. apply ret_type_errors.
Qed.

Lemma set_type_errors v k l : type_errors_only (Js.set v k l).
Proof.
  destruct v as [l0|]; [|apply throw_type_errors]. simpl.
  destruct (own_name k); [|apply beyond_type_errors].
  apply bind_type_errors; [apply deref_type_errors|]. by intros o h e h'.
Qed.

Lemma push_type_errors v s : type_errors_only (Js.push v s).
Proof.
  destruct v as [l|]; [|apply throw_type_errors].
  apply bind_type_errors; [apply deref_type_errors|].
  intros [ps|es ps]; [apply throw_type_errors|by intros h e h'].
Qed.

Lemma alloc_type_errors o : type_errors_only (Js.alloc o).
Proof. by intros h e h'. Qed.

Lemma resolve_type_errors path :
  ∀ target, type_errors_only (resolveOrCreateTargetFromPath target path).
Proof.
  induction path as [|segment rest IH]; intros target; [apply ret_type_errors|].
  cbn [resolveOrCreateTargetFromPath].
  apply bind_type_errors; [apply get_type_errors|]. intros found.
  apply bind_type_errors.
  - destruct found; [apply ret_type_errors|].
    apply bind_type_errors; [apply alloc_type_errors|]. intros n.
    apply set_type_errors.
  - intros _. apply bind_type_errors; [apply get_type_errors|]. apply IH.
Qed.

Lemma sanitize_type_errors errors :
  type_errors_only (sanitizeValidationErrors errors).
Proof.
  unfold sanitizeValidationErrors.
  apply bind_type_errors; [apply alloc_type_errors|]. intros de.
  apply bind_type_errors; [apply alloc_type_errors|]. intros fe.
  apply bind_type_errors; [apply alloc_type_errors|]. intros root.
  apply bind_type_errors; [|intros _; apply ret_type_errors].
  induction errors as [|e errors IH]; [apply ret_type_errors|].
  cbn [Js.each]. apply bind_type_errors; [|by intros _].
  unfold sanitizeError, saveToPath.
  apply bind_type_errors; [apply get_type_errors|]. intros target.
  apply bind_type_errors; [|intros t; apply push_type_errors].
  destruct (bool_decide _); [apply resolve_type_errors|apply get_type_errors].
Qed.

End Throws.

Section ComponentProperties.
Context {schema content : Type} `{ZSchema schema content} `{Truthy schema}.
Implicit Types (w : @world schema content) (key : string) (data : content).

(** The schemas handed to [validateSchema] are all the registered ones. *)
Lemma all_schemas (m : list (string * schema)) :
  NoDup (keys m) → omap (λ v, lookup_key v m) (keys m) = m.*2.
Proof.
  assert (∀ k a (m : list (string * schema)) (ks : list string), k ∉ ks →
            omap (λ v, lookup_key v ((k, a) :: m)) ks
            = omap (λ v, lookup_key v m) ks) as Hskip.
  { intros k a m0 ks. induction ks as [|k' ks IH]; intros Hk; [done|].
    apply not_elem_of_cons in Hk as [Hne Hk]. csimpl.
    destruct (String.eqb_spec k k') as [->|_]; [done|].
    specialize (IH Hk). csimpl in IH. by rewrite IH. }
  unfold keys. induction m as [|[k a] m IH]; intros Hnd; [done|].
  rewrite !fmap_cons in *. apply NoDup_cons in Hnd as [Hk Hnd]. csimpl.
  rewrite String.eqb_refl. f_equal.
  rewrite <- IH by done. by apply Hskip.
Qed.

(** Every run of [validate] is one of four: no call at all, or the two
    checks of the schemas followed by what the verdicts command. *)
Lemma validate_cases key data w :
  let schemas :=
    omap (λ v, lookup_key v (schemaContents w)) (keys (schemaContents w)) in
  let checked := validateSchema schemas getValidator in
  (has_content key w = false ∧
   validate key data w = (Raised (Failure (FailMessage no_schema_content)), w))
  ∨ (∃ found,
       read_member key (schemaContents w) = Some found ∧
       member_truthy found = true ∧
       if checked.1 then
         let verdict := validate_content data found checked.2 in
         if verdict.1 then
           validate key data w
           = (Returned None,
              World (schemaContents w) (objects w)
                (calls w ++ [CallGetValidator; CallValidateSchema schemas;
                             CallValidate data found]))
         else
           validate key data w
           = run (Validator.sanitizeValidationErrors (getLastErrors verdict.2))
               (World (schemaContents w) (objects w)
                  (calls w ++ [CallGetValidator; CallValidateSchema schemas;
                               CallValidate data found; CallGetLastErrors]))
       else
         validate key data w
         = (Raised (Failure (FailErrors (getLastErrors checked.2))),
            World (schemaContents w) (objects w)
              (calls w ++ [CallGetValidator; CallValidateSchema schemas;
                           CallGetLastErrors]))).
Proof.
  intros schemas checked. unfold validate, has_content.
  destruct (read_member key (schemaContents w)) as [found|]; [|by left].
  destruct (member_truthy found) eqn:Htruthy; [|by left].
  right. exists found. split_and!; [done|done|].
  cbn [negb called schemaContents calls objects]. fold schemas. fold checked.
  destruct checked as [[] v1]; cbn [negb fst snd].
  - destruct (validate_content data found v1) as [[] v2]; cbn [negb fst snd];
      unfold called; cbn [schemaContents calls objects];
      by rewrite <- !app_assoc.
  - unfold called. cbn [schemaContents calls objects]. by rewrite <- !app_assoc.
Qed.

Lemma run_calls (m : M value) w :
  calls (run m w).2 = calls w ∧ schemaContents (run m w).2 = schemaContents w.
Proof. unfold run. by destruct (m (objects w)). Qed.

(** C6, at a key that was never registered and names a member of
    [Object.prototype]: the test of the source lets it pass.  [validate]
    raises no missing-schema failure; it obtains a validator, has it check
    the registered schemas and, when they are accepted, validates the
    content against the inherited member. *)
Theorem validate_inherited_key_is_not_refused key data w :
  lookup_key key (schemaContents w) = None → inherited key = true →
  let schemas :=
    omap (λ v, lookup_key v (schemaContents w)) (keys (schemaContents w)) in
  let checked := validateSchema schemas getValidator in
  (validate key data w).1 ≠ Raised (Failure (FailMessage no_schema_content)) ∧
  (∃ later,
     calls (validate key data w).2
     = calls w ++ [CallGetValidator; CallValidateSchema schemas] ++ later) ∧
  (checked.1 = true →
   ∃ later,
     calls (validate key data w).2
     = calls w ++ [CallGetValidator; CallValidateSchema schemas;
                   CallValidate data (Inherited key)] ++ later).
Proof.
  intros Hkey Hinh schemas checked.
  destruct (validate_cases key data w) as [[Hno _]|(found & Hread & _ & Hrun)].
  { unfold has_content, read_member in Hno. by rewrite Hkey, Hinh in Hno. }
  assert (found = Inherited key) as ->.
  { unfold read_member in Hread. rewrite Hkey, Hinh in Hread. congruence. }
  fold schemas in Hrun. fold checked in Hrun.
  destruct checked.1.
  - cbv zeta in Hrun.
    destruct (validate_content data (Inherited key) checked.2).1.
    + rewrite Hrun. cbn [fst snd calls]. split_and!; [done| |].
      * by exists [CallValidate data (Inherited key)].
      * intros _. exists []. by rewrite app_nil_r.
    + rewrite Hrun.
      destruct (run_calls
                  (Validator.sanitizeValidationErrors
                     (getLastErrors (validate_content data (Inherited key) checked.2).2))
                  (World (schemaContents w) (objects w)
                     (calls w ++ [CallGetValidator; CallValidateSchema schemas;
                                  CallValidate data (Inherited key);
                                  CallGetLastErrors]))) as [-> _].
      cbn [calls]. split_and!.
      * unfold run. cbn [objects].
        destruct (Validator.sanitizeValidationErrors _ _) as [v h|e h|] eqn:Hs;
          [done| |done].
        apply sanitize_type_errors in Hs as ->. done.
      * by exists [CallValidate data (Inherited key); CallGetLastErrors].
      * intros _. by exists [CallGetLastErrors].
  - rewrite Hrun. cbn [fst snd calls]. split_and!; [done| |done].
    by exists [CallGetLastErrors].
Qed.

(** C9: whatever the key, the calls [validate] makes on a validator start
    with [getValidator] and [validateSchema] on all the registered schemas,
    so the content is validated after them or not at all.  When
    [validateSchema] rejects the schemas, [validate] fails: it returns
    nothing, never has the content validated and leaves the store as it was;
    for a key with content the failure carries the errors of the validator. *)
Theorem validate_checks_schemas_first key data w :
  let schemas :=
    omap (λ v, lookup_key v (schemaContents w)) (keys (schemaContents w)) in
  let checked := validateSchema schemas getValidator in
  (NoDup (keys (schemaContents w)) → schemas = (schemaContents w).*2) ∧
  (∃ added,
     calls (validate key data w).2 = calls w ++ added ∧
     (added = [] ∨
      ∃ later, added = [CallGetValidator; CallValidateSchema schemas] ++ later) ∧
     (checked.1 = false →
      (∀ d found, CallValidate d found ∉ added) ∧
      objects (validate key data w).2 = objects w ∧
      ∃ failure, (validate key data w).1 = Raised (Failure failure) ∧
                 (has_content key w = true →
                  failure = FailErrors (getLastErrors checked.2) ∧
                  added = [CallGetValidator; CallValidateSchema schemas;
                           CallGetLastErrors]))).
Proof.
  intros schemas checked. split; [apply all_schemas|].
  destruct (validate_cases key data w) as [[Hno Hrun]|(found & Hread & Htruthy & Hrun)].
  { exists []. rewrite Hrun. cbn [fst snd]. rewrite app_nil_r.
    split_and!; [done|by left|]. intros _.
    split_and!; [by intros d found' Hin%elem_of_nil|done|].
    eexists. split; [done|]. by rewrite Hno. }
  assert (has_content key w = true) as Hcontent
    by (unfold has_content; by rewrite Hread).
  fold schemas in Hrun. fold checked in Hrun.
  destruct checked.1.
  - cbv zeta in Hrun. destruct (validate_content data found checked.2).1.
    + rewrite Hrun. cbn [fst snd calls].
      exists [CallGetValidator; CallValidateSchema schemas; CallValidate data found].
      split_and!; [done| |done]. right. by eexists.
    + rewrite Hrun.
      destruct (run_calls
                  (Validator.sanitizeValidationErrors
                     (getLastErrors (validate_content data found checked.2).2))
                  (World (schemaContents w) (objects w)
                     (calls w ++ [CallGetValidator; CallValidateSchema schemas;
                                  CallValidate data found; CallGetLastErrors])))
        as [-> _].
      cbn [calls].
      exists [CallGetValidator; CallValidateSchema schemas; CallValidate data found;
              CallGetLastErrors].
      split_and!; [done| |done]. right. by eexists.
  - rewrite Hrun. cbn [fst snd calls objects].
    exists [CallGetValidator; CallValidateSchema schemas; CallGetLastErrors].
    split_and!; [done|right; by eexists|]. intros _. split_and!; [|done|].
    + intros d found' Hin. repeat (apply elem_of_cons in Hin as [Hin|Hin]; [done|]).
      by apply elem_of_nil in Hin.
    + eexists. split; [done|]. done.
Qed.

(** C3, amended: when the value read at the key is truthy and the validator
    accepts the registered schemas and the content, [validate] returns
    [undefined], whatever the schema contains, and builds no report.
    [undefined] is not the reference to a report, which is what
    [sanitizeValidationErrors] returns even for no error at all. *)
Theorem validate_valid_returns_undefined key data w found :
  read_member key (schemaContents w) = Some found →
  member_truthy found = true →
  let schemas :=
    omap (λ v, lookup_key v (schemaContents w)) (keys (schemaContents w)) in
  let checked := validateSchema schemas getValidator in
  checked.1 = true →
  (validate_content data found checked.2).1 = true →
  (validate key data w).1 = Returned None ∧
  objects (validate key data w).2 = objects w ∧
  ∀ w0 : @world schema content,
    ∃ report,
      (run (Validator.sanitizeValidationErrors []) w0).1 = Returned (Some report) ∧
      (validate key data w).1 ≠ Returned (Some report).
Proof.
  intros Hread Htruthy schemas checked Hschemas Hverdict.
  assert ((validate key data w).1 = Returned None ∧
          objects (validate key data w).2 = objects w) as [Hres Hobj].
  { destruct (validate_cases key data w) as [[Hno _]|(found' & Hread' & _ & Hrun)].
    { unfold has_content in Hno. by rewrite Hread, Htruthy in Hno. }
    assert (found' = found) as -> by congruence.
    fold schemas in Hrun. fold checked in Hrun.
    rewrite Hschemas in Hrun. cbv zeta in Hrun. rewrite Hverdict in Hrun.
    by rewrite Hrun. }
  split_and!; [done..|].
  intros w0. eexists. split; [reflexivity|]. by rewrite Hres.
Qed.

End ComponentProperties.

Lemma validate_inherited_key_is_not_refused_witness :
  (@validate nat nat example_engine _ "constructor" 3%nat example_world).1
  ≠ Raised (Failure (FailMessage no_schema_content)) ∧
  ∃ later,
    calls (@validate nat nat example_engine _ "constructor" 3%nat example_world).2
    = calls example_world
      ++ [CallGetValidator; CallValidateSchema [5; 9]%nat;
          CallValidate 3%nat (Inherited "constructor")] ++ later.
Proof.
  pose proof (@validate_inherited_key_is_not_refused nat nat example_engine _
                "constructor" 3%nat example_world eq_refl eq_refl) as Hv.
  cbv zeta in Hv. destruct Hv as (Hfail & _ & Hcalls).
  split; [exact Hfail|]. apply Hcalls. reflexivity.
Defined.

Lemma validate_checks_schemas_first_witness :
  omap (λ v, lookup_key v (schemaContents broken_world))
       (keys (schemaContents broken_world)) = [5; 1]%nat ∧
  (@validate nat nat example_engine _ "base.json" 3%nat broken_world).1
  = Raised (Failure (FailErrors
              [RawError "SCHEMA_INVALID" None "1 is not a schema" "#/"])) ∧
  calls (@validate nat nat example_engine _ "base.json" 3%nat broken_world).2
  = calls broken_world
    ++ [CallGetValidator; CallValidateSchema [5; 1]%nat; CallGetLastErrors] ∧
  objects (@validate nat nat example_engine _ "base.json" 3%nat broken_world).2
  = objects broken_world.
Proof.
  pose proof (@validate_checks_schemas_first nat nat example_engine _
                "base.json" 3%nat broken_world) as Hv.
  cbv zeta in Hv. destruct Hv as (Hall & added & Hcalls & _ & Hbad).
  destruct Hbad as (_ & Hobjects & failure & Hraised & Hcontent); [reflexivity|].
  destruct Hcontent as [-> ->]; [reflexivity|].
  split_and!.
  - rewrite Hall; [reflexivity|]. apply (bool_decide_unpack _). vm_compute. exact I.
  - exact Hraised.
  - exact Hcalls.
  - exact Hobjects.
Defined.

Lemma validate_valid_returns_undefined_witness :
  (@validate keyword_schema nat (keyword_engine (ZSchemaOptions false false)) _
     "evolved.json" 3%nat (World [("evolved.json", annotated_schema)] ∅ [])).1
  = Returned None ∧
  objects (@validate keyword_schema nat
             (keyword_engine (ZSchemaOptions false false)) _
             "evolved.json" 3%nat
             (World [("evolved.json", annotated_schema)] ∅ [])).2
  = ∅ ∧
  ∀ w0 : @world keyword_schema nat,
    ∃ report,
      (run (Validator.sanitizeValidationErrors []) w0).1 = Returned (Some report) ∧
      (@validate keyword_schema nat (keyword_engine (ZSchemaOptions false false)) _
         "evolved.json" 3%nat (World [("evolved.json", annotated_schema)] ∅ [])).1
      ≠ Returned (Some report).
Proof.
  apply (@validate_valid_returns_undefined keyword_schema nat
           (keyword_engine (ZSchemaOptions false false)) _
           "evolved.json" 3%nat (World [("evolved.json", annotated_schema)] ∅ [])
           (Registered annotated_schema)); reflexivity.
Defined.

(** C3, as the claim states it, fails for a validator that honours the
    [noExtraKeywords] of the component: the record 3 satisfies the maximum
    of the schema, and [validate] returns [undefined] for the plain schema,
    fails for the same schema with an [errors] block attached, and returns
    [undefined] again once the option is off. *)
Lemma metadata_counterexample :
  (@validate keyword_schema nat (keyword_engine default_options) _
     "evolved.json" 3%nat (World [("evolved.json", plain_schema)] ∅ [])).1
  = Returned None ∧
  (@validate keyword_schema nat (keyword_engine default_options) _
     "evolved.json" 3%nat (World [("evolved.json", annotated_schema)] ∅ [])).1
  = Raised (Failure (FailErrors
              [RawError "KEYWORD_UNEXPECTED" (Some ["errors"])
                 "Keyword is not expected to appear in the schema" "#/"])) ∧
  (@validate keyword_schema nat (keyword_engine (ZSchemaOptions false false)) _
     "evolved.json" 3%nat (World [("evolved.json", annotated_schema)] ∅ [])).1
  = Returned None.
Proof. split_and!; reflexivity. Qed.

(** A registered document that is falsy counts as missing: the validator is
    not called. *)
Example validate_falsy_document :
  @validate nat nat example_engine _ "zero.json" 3%nat falsy_world
  = (Raised (Failure (FailMessage no_schema_content)), falsy_world).
Proof. reflexivity. Qed.

Example validate_invalid_content :
  (@validate nat nat example_engine _ "base.json" 7%nat example_world).1
  = Returned (Some 3%positive).
Proof. vm_compute. reflexivity. Qed.

(** ** The pointer resolver of the specification *)

Section Pointers.
Import Validator Spec.




End Pointers.

(** The pointer of the comment above [extractPathSegments]: the escape is
    kept as it is. *)
Example slash_in_path :
  Validator.extractPathSegments
    (RawError "OBJECT_MISSING_REQUIRED_PROPERTY" (Some ["required"])
       "Missing required property: required" "#/deep~1slasher")
  = ["deep~1slasher"; "required"].
Proof. reflexivity. Qed.




(** ** The merge engine of the specification *)

Section Overlay.
Import Spec.
Implicit Types (n c base overlay : snode) (ptr p q : list string) (kw : string).

Lemma size_member e (ms : gmap string snode) k c :
  ms !! k = Some c → size_of c < size_of (Mapping e ms).
Proof.
  intros Hk. cbn [size_of].
  rewrite (map_fold_delete_L _ _ k c ms); [lia| |done].
  intros. lia.
Qed.

Lemma size_item items c : c ∈ items → size_of c < size_of (Sequence items).
Proof.
  intros Hc. cbn [size_of]. induction Hc as [c items|c c' items _ IH]; simpl; lia.
Qed.

Lemma snode_induction (P : snode → Prop) :
  P Scalar →
  (∀ e (ms : gmap string snode), (∀ k c, ms !! k = Some c → P c) → P (Mapping e ms)) →
  (∀ items, Forall P items → P (Sequence items)) →
  ∀ n, P n.
Proof.
  intros Hs Hm Hq n. remember (size_of n) as s eqn:Hsize. revert n Hsize.
  induction s as [s IH] using lt_wf_ind. intros [|e ms|items] ->.
  - done.
  - apply Hm. intros k c Hk. apply (IH (size_of c)); [by eapply size_member|done].
  - apply Hq. apply Forall_forall. intros c Hc.
    apply (IH (size_of c)); [by apply size_item|done].
Qed.

Lemma collect_mapping ptr e (ms : gmap string snode) :
  collect ptr (Mapping e ms)
  = entries ptr e ∪ map_fold (λ k c acc, collect (ptr ++ [k]) c ∪ acc) ∅ ms.
Proof. done. Qed.

Lemma collect_sequence ptr items :
  collect ptr (Sequence items) = positional ptr 0 items.
Proof.
  cbn [collect]. generalize 0. induction items as [|c cs IH]; intros i; [done|].
  cbn [positional]. by rewrite <- IH.
Qed.

Lemma entries_lookup ptr e x kw v :
  entries ptr e !! (x, kw) = Some v → x = ptr.
Proof.
  destruct e as [block|]; simpl; [|by rewrite lookup_empty].
  intros (k & Heq & _)%lookup_kmap_Some; [|apply _]. by injection Heq.
Qed.

Lemma entries_lookup_here ptr e kw :
  entries ptr e !! (ptr, kw) = match e with Some block => block !! kw | None => None end.
Proof.
  destruct e as [block|]; simpl; [|by rewrite lookup_empty].
  apply (lookup_kmap (pair ptr)).
Qed.

(** An entry found by the walk over the members of a mapping comes from one
    of the members. *)
Lemma members_lookup_Some ptr (ms : gmap string snode) key v :
  map_fold (λ k c acc, collect (ptr ++ [k]) c ∪ acc) ∅ ms !! key = Some v →
  ∃ k c, ms !! k = Some c ∧ collect (ptr ++ [k]) c !! key = Some v.
Proof.
  apply (map_fold_weak_ind
           (λ r m, r !! key = Some v →
                   ∃ k c, m !! k = Some c ∧ collect (ptr ++ [k]) c !! key = Some v)).
  - by rewrite lookup_empty.
  - intros i c m r Hi IH [Hc|[_ Hr]]%lookup_union_Some_raw.
    + exists i, c. by rewrite lookup_insert_eq.
    + destruct (IH Hr) as (k & c' & Hk & Hc'). exists k, c'.
      rewrite lookup_insert_ne; [done|congruence].
Qed.

Lemma positional_lookup_Some ptr items : ∀ i key v,
  positional ptr i items !! key = Some v →
  ∃ j c, (i ≤ j)%nat ∧ c ∈ items ∧ collect (ptr ++ [pretty j]) c !! key = Some v.
Proof.
  induction items as [|c cs IH]; intros i key v; simpl.
  - by rewrite lookup_empty.
  - intros [Hc|[_ Hr]]%lookup_union_Some_raw.
    + exists i, c. split_and!; [lia|by left|done].
    + destruct (IH _ _ _ Hr) as (j & c' & Hj & Hc' & Hv).
      exists j, c'. split_and!; [lia|by right|done].
Qed.

(** The walk only writes entries at or below the pointer it was given. *)
Lemma collect_prefix n : ∀ ptr x kw v,
  collect ptr n !! (x, kw) = Some v → ptr `prefix_of` x.
Proof.
  induction n as [|e ms IH|items IH] using snode_induction; intros ptr x kw v.
  - simpl. by rewrite lookup_empty.
  - rewrite collect_mapping. intros [He|[_ Hm]]%lookup_union_Some_raw.
    + by rewrite (entries_lookup _ _ _ _ _ He).
    + destruct (members_lookup_Some _ _ _ _ Hm) as (k & c & Hk & Hc).
      etrans; [|by eapply IH]. by apply prefix_app_r.
  - rewrite collect_sequence. intros Hp.
    destruct (positional_lookup_Some _ _ _ _ _ Hp) as (j & c & _ & Hc & Hv).
    rewrite Forall_forall in IH.
    etrans; [|by eapply IH]. by apply prefix_app_r.
Qed.

Lemma not_prefix_longer ptr k : ¬ (ptr ++ [k]) `prefix_of` ptr.
Proof. intros Hp%prefix_length. rewrite length_app in Hp. simpl in Hp. lia. Qed.

Lemma prefix_segment ptr i k q : (ptr ++ [i]) `prefix_of` (ptr ++ k :: q) → i = k.
Proof. intros Hp%prefix_app_inv. by apply prefix_cons_inv_1 in Hp. Qed.

(** Below a mapping, the entries at a pointer through member [k] are those
    of the walk of that member. *)
Lemma members_lookup_at ptr (ms : gmap string snode) k q kw :
  map_fold (λ k c acc, collect (ptr ++ [k]) c ∪ acc) ∅ ms !! (ptr ++ k :: q, kw)
  = match ms !! k with
    | Some c => collect (ptr ++ [k]) c !! (ptr ++ k :: q, kw)
    | None => None
    end.
Proof.
  apply (map_fold_weak_ind
           (λ r m, r !! (ptr ++ k :: q, kw)
                   = match m !! k with
                     | Some c => collect (ptr ++ [k]) c !! (ptr ++ k :: q, kw)
                     | None => None
                     end)).
  - by rewrite !lookup_empty.
  - intros i c m r Hi IH. destruct (decide (i = k)) as [->|Hne].
    + rewrite lookup_insert_eq. rewrite Hi in IH. by apply lookup_union_l.
    + rewrite lookup_insert_ne, <- IH by done. apply lookup_union_r.
      destruct (collect (ptr ++ [i]) c !! (ptr ++ k :: q, kw)) eqn:Hc; [|done].
      apply collect_prefix, prefix_segment in Hc. done.
Qed.

Lemma positional_lookup_at ptr items k q kw : ∀ i,
  positional ptr i items !! (ptr ++ k :: q, kw)
  = match item_from i k items with
    | Some c => collect (ptr ++ [k]) c !! (ptr ++ k :: q, kw)
    | None => None
    end.
Proof.
  induction items as [|c cs IH]; intros i; simpl; [by rewrite lookup_empty|].
  destruct (decide (pretty i = k)) as [<-|Hne].
  - apply lookup_union_l.
    destruct (positional ptr (S i) cs !! _) eqn:Hp; [|done].
    destruct (positional_lookup_Some _ _ _ _ _ Hp) as (j & c' & Hj & _ & Hv).
    apply collect_prefix, prefix_segment in Hv.
    apply (inj pretty) in Hv. lia.
  - rewrite <- IH. apply lookup_union_r.
    destruct (collect (ptr ++ [pretty i]) c !! (ptr ++ k :: q, kw)) eqn:Hc; [|done].
    apply collect_prefix, prefix_segment in Hc. done.
Qed.

Lemma item_from_index items N : ∀ i, item_from i (pretty (i + N)) items = items !! N.
Proof.
  revert N. induction items as [|c cs IH]; intros N i; [done|]. simpl.
  destruct N as [|N].
  - rewrite Nat.add_0_r. by rewrite decide_True.
  - rewrite decide_False by (intros Heq%(inj pretty); lia).
    replace (i + S N) with (S i + N) by lia. apply IH.
Qed.

(** What the walk writes at a pointer is what the schema declares at the node
    the pointer addresses. *)
Lemma collect_lookup q : ∀ n ptr kw,
  collect ptr n !! (ptr ++ q, kw) = message_at n q kw.
Proof.
  induction q as [|k q IH]; intros n ptr kw.
  - rewrite app_nil_r. unfold message_at. cbn [node_at].
    destruct n as [|e ms|items]; cbn [errors_of].
    + done.
    + rewrite collect_mapping, <- (entries_lookup_here ptr e kw).
      apply lookup_union_l.
      destruct (map_fold _ _ _ !! _) eqn:Hm; [|done].
      destruct (members_lookup_Some _ _ _ _ Hm) as (k & c & _ & Hc).
      by apply collect_prefix, not_prefix_longer in Hc.
    + rewrite collect_sequence.
      destruct (positional _ _ _ !! _) eqn:Hp; [|done].
      destruct (positional_lookup_Some _ _ _ _ _ Hp) as (j & c & _ & _ & Hc).
      by apply collect_prefix, not_prefix_longer in Hc.
  - unfold message_at. cbn [node_at]. destruct n as [|e ms|items].
    + done.
    + rewrite collect_mapping, lookup_union_r, members_lookup_at.
      * destruct (ms !! k) as [c|]; [|done].
        rewrite (cons_middle k ptr q), app_assoc. apply IH.
      * destruct (entries ptr e !! _) eqn:He; [|done].
        apply entries_lookup in He. apply (f_equal length) in He.
        rewrite length_app in He. simpl in He. lia.
    + rewrite collect_sequence, positional_lookup_at.
      destruct (item_from 0 k items) as [c|]; [|done].
      rewrite (cons_middle k ptr q), app_assoc. apply IH.
Qed.

Lemma layered_snoc p kw below overlays overlay :
  layered p kw below (overlays ++ [overlay])
  = match message_at overlay p kw with
    | Some m => Some m
    | None => layered p kw below overlays
    end.
Proof. unfold layered. by rewrite foldl_app. Qed.

Lemma layered_silent p kw below overlays :
  Forall (λ overlay, message_at overlay p kw = None) overlays →
  layered p kw below overlays = below.
Proof.
  unfold layered. induction overlays as [|o overlays IH] using rev_ind; [done|].
  intros [Hall Ho]%Forall_app. rewrite Forall_singleton in Ho.
  rewrite foldl_app. simpl. rewrite Ho. by apply IH.
Qed.

(** The index of a merge at a key. *)
Lemma merge_lookup base overlays p kw :
  merge base overlays !! (p, kw) = layered p kw (message_at base p kw) overlays.
Proof.
  unfold merge, layered. rewrite <- (collect_lookup p base [] kw). simpl.
  generalize (collect [] base). induction overlays as [|o overlays IH]; intros idx.
  - done.
  - simpl. rewrite IH. f_equal. rewrite lookup_union.
    pose proof (collect_lookup p o [] kw) as Ho. simpl in Ho. rewrite Ho.
    by destruct (message_at o p kw), (idx !! (p, kw)).
Qed.

Lemma node_at_app n p q :
  node_at n (p ++ q) = match node_at n p with Some c => node_at c q | None => None end.
Proof.
  revert n. induction p as [|k p IH]; intros n; [done|]. simpl.
  destruct n as [|e ms|items]; [done| |].
  - destruct (ms !! k); [apply IH|done].
  - destruct (item_from 0 k items); [apply IH|done].
Qed.

End Overlay.

(** C2: in the index of a merge, where the base declares a message and the
    overlay applied last declares one for the same pointer and keyword, the
    entry is the message of the overlay; a message of the base that no
    overlay declares again is inherited; where neither the base nor an
    overlay declares a message the index has no entry, and the localizer
    keeps the message of the validator. *)
Theorem merge_overlay_precedence
    (base overlay : Spec.snode) (overlays : list Spec.snode)
    (p : list string) (kw raw : string) :
  (∀ M0 M1, Spec.message_at base p kw = Some M0 →
     Spec.message_at overlay p kw = Some M1 →
     Spec.merge base (overlays ++ [overlay]) !! (p, kw) = Some M1 ∧
     Spec.localizeMessage (Spec.merge base (overlays ++ [overlay])) (p, kw) raw = M1) ∧
  (∀ M0, Spec.message_at base p kw = Some M0 →
     Forall (λ o, Spec.message_at o p kw = None) overlays →
     Spec.merge base overlays !! (p, kw) = Some M0 ∧
     Spec.localizeMessage (Spec.merge base overlays) (p, kw) raw = M0) ∧
  (Spec.message_at base p kw = None →
   Forall (λ o, Spec.message_at o p kw = None) overlays →
   Spec.merge base overlays !! (p, kw) = None ∧
   Spec.localizeMessage (Spec.merge base overlays) (p, kw) raw = raw).
Proof.
  unfold Spec.localizeMessage. split_and!.
  - intros M0 M1 _ H1. rewrite merge_lookup, layered_snoc, H1. done.
  - intros M0 H0 Hnone. rewrite merge_lookup, layered_silent, H0 by done. done.
  - intros H0 Hnone. rewrite merge_lookup, layered_silent, H0 by done. done.
Qed.

Lemma merge_overlay_precedence_witness :
  Spec.merge evolved_json [better_overlay]
    !! (["definitions"; "testString"], "maxLength")
  = Some "You must enter a BETTER string that is no more than nine characters long." ∧
  Spec.merge evolved_json [better_overlay]
    !! (["definitions"; "testString"], "minLength")
  = Some "You must enter a test string that is at least four characters long." ∧
  Spec.localizeMessage (Spec.merge evolved_json [better_overlay])
    (["definitions"; "testString"], "type") "should be string"
  = "should be string".
Proof.
  split_and!.
  - destruct (merge_overlay_precedence evolved_json better_overlay []
                ["definitions"; "testString"] "maxLength" "raw") as (Hboth & _ & _).
    apply (Hboth "You must enter a test string that is no more than nine characters long.");
      reflexivity.
  - apply (merge_overlay_precedence evolved_json better_overlay [better_overlay]
             ["definitions"; "testString"] "minLength" "raw").
    + reflexivity.
    + by repeat constructor.
  - apply (merge_overlay_precedence evolved_json better_overlay [better_overlay]
             ["definitions"; "testString"] "type" "should be string").
    + reflexivity.
    + by repeat constructor.
Defined.

(** C8: the member at position [N] of an [allOf] sequence is addressed by the
    pointer that ends in [allOf] and the decimal writing of [N], and no other
    position has that pointer.  The entry of the index under that pointer is
    the message the overlay declares in the [errors] block of that member;
    when that member declares none, the entry is the one of the layers below
    at the same pointer. *)
Theorem allOf_entry_by_position
    (base overlay : Spec.snode) (overlays : list Spec.snode)
    (p : list string) (items : list Spec.snode) (N : nat) (member : Spec.snode)
    (kw raw : string) :
  Spec.node_at overlay (p ++ ["allOf"]) = Some (Spec.Sequence items) →
  items !! N = Some member →
  let key := (p ++ ["allOf"; pretty N], kw) in
  let declared := match Spec.errors_of member with
                  | Some block => block !! kw
                  | None => None
                  end in
  Spec.message_at overlay (p ++ ["allOf"; pretty N]) kw = declared ∧
  Spec.merge base (overlays ++ [overlay]) !! key
  = match declared with
    | Some m => Some m
    | None => Spec.merge base overlays !! key
    end ∧
  (∀ m, declared = Some m →
     Spec.localizeMessage (Spec.merge base (overlays ++ [overlay])) key raw = m) ∧
  (∀ N', N' ≠ N → (p ++ ["allOf"; pretty N'], kw) ≠ key).
Proof.
  intros Hseq Hmember key declared.
  assert (Spec.message_at overlay (p ++ ["allOf"; pretty N]) kw = declared) as Hdecl.
  { unfold Spec.message_at.
    change (p ++ ["allOf"; pretty N]) with (p ++ ["allOf"] ++ [pretty N]).
    rewrite app_assoc, node_at_app, Hseq. simpl.
    pose proof (item_from_index items N 0) as Hitem. simpl in Hitem.
    rewrite Hitem, Hmember. done. }
  assert (Spec.merge base (overlays ++ [overlay]) !! key
          = match declared with
            | Some m => Some m
            | None => Spec.merge base overlays !! key
            end) as Hmerge.
  { unfold key. by rewrite !merge_lookup, layered_snoc, Hdecl. }
  split_and!; [done|done| |].
  - intros m Hm. unfold Spec.localizeMessage. by rewrite Hmerge, Hm.
  - intros N' Hne [= Heq%app_inv_head]. injection Heq as Heq.
    by apply (inj pretty) in Heq.
Qed.

Lemma allOf_entry_by_position_witness :
  Spec.message_at evolved_json (["definitions"; "testAllOf"] ++ ["allOf"; pretty 2])
    "maxLength"
  = Some "The 'allOf' string cannot be longer than nine characters." ∧
  Spec.merge gated_json ([] ++ [evolved_json])
    !! (["definitions"; "testAllOf"] ++ ["allOf"; pretty 2], "maxLength")
  = Some "The 'allOf' string cannot be longer than nine characters." ∧
  Spec.localizeMessage (Spec.merge gated_json ([] ++ [evolved_json]))
    (["definitions"; "testAllOf"] ++ ["allOf"; pretty 2], "maxLength")
    "should NOT be longer than 9 characters"
  = "The 'allOf' string cannot be longer than nine characters." ∧
  (["definitions"; "testAllOf"] ++ ["allOf"; pretty 0], "maxLength")
  ≠ (["definitions"; "testAllOf"] ++ ["allOf"; pretty 2], "maxLength").
Proof.
  pose proof (allOf_entry_by_position gated_json evolved_json []
                ["definitions"; "testAllOf"] evolved_allOf 2 evolved_maxLength
                "maxLength" "should NOT be longer than 9 characters"
                eq_refl eq_refl) as Hv.
  cbv zeta in Hv. destruct Hv as (Hdecl & Hmerge & Hloc & Hother).
  split_and!.
  - exact Hdecl.
  - exact Hmerge.
  - apply Hloc. reflexivity.
  - apply Hother. discriminate.
Defined.

(** The entry for the failure of the parser tests at [allOf] position 2. *)
Example allOf_position_two :
  Spec.merge gated_json [evolved_json]
    !! (["definitions"; "testAllOf"; "allOf"; "2"], "maxLength")
  = Some "The 'allOf' string cannot be longer than nine characters.".
Proof. vm_compute. reflexivity. Qed.

(** * Further properties of [validate.js] *)

(** ** The segments of a path *)

Section Segments.
Import Validator.

Lemma split_nonempty sep s : JsString.split sep s ≠ [].
Proof.
  destruct s as [|c s]; simpl; [done|].
  destruct (Ascii.eqb c sep); [done|]. by destruct (JsString.split sep s).
Qed.

Lemma split_no_separator sep s :
  Forall (λ piece, has_char sep piece = false) (JsString.split sep s).
Proof.
  induction s as [|c s IH]; simpl.
  - by repeat constructor.
  - destruct (Ascii.eqb c sep) eqn:Hc.
    + by constructor.
    + destruct (JsString.split sep s) as [|piece pieces].
      * repeat constructor. simpl. by rewrite Hc.
      * apply Forall_cons in IH as [Hpiece Hpieces].
        constructor; [|done]. simpl. by rewrite Hc.
Qed.

Lemma split_trailing sep s :
  JsString.split sep (String.append s (String sep EmptyString))
  = JsString.split sep s ++ [EmptyString].
Proof.
  induction s as [|c s IH]; simpl.
  - by rewrite Ascii.eqb_refl.
  - destruct (Ascii.eqb c sep); [by rewrite IH|].
    rewrite IH. pose proof (split_nonempty sep s).
    by destruct (JsString.split sep s).
Qed.

Lemma slice1_subseteq {A} (l : list A) x : x ∈ JsString.slice1 l → x ∈ l.
Proof. destruct l; [done|]. unfold JsString.slice1. simpl. rewrite drop_0. by right. Qed.

End Segments.

(** X1: a segment that [extractPathSegments] takes from the path of an error
    is never empty and holds no slash; the only other segments are the
    parameters appended for a required-property failure. *)
Theorem path_segments_are_plain (e : raw_error) (s : string) :
  s ∈ Validator.extractPathSegments e →
  (s ≠ "" ∧ has_char "/" s = false) ∨
  (code e = "OBJECT_MISSING_REQUIRED_PROPERTY" ∧
   ∃ ps, params e = Some ps ∧ s ∈ ps).
Proof.
  assert (s ∈ JsString.slice1 (List.filter Validator.removeEmptySegments
                                 (JsString.split "/" (path e))) →
          s ≠ "" ∧ has_char "/" s = false) as Hpath.
  { intros Hs%slice1_subseteq. apply list_elem_of_In, filter_In in Hs as [Hin Hne].
    split.
    - intros ->. done.
    - pose proof (split_no_separator "/" (path e)) as Hall.
      rewrite Forall_forall in Hall. apply Hall. by apply list_elem_of_In. }
  unfold Validator.extractPathSegments.
  destruct (String.eqb_spec (code e) "OBJECT_MISSING_REQUIRED_PROPERTY") as [Hcode|_];
    [|by left; apply Hpath].
  destruct (params e) as [ps|] eqn:Hps; [|by left; apply Hpath].
  intros [Hs|Hs]%elem_of_app; [by left; apply Hpath|].
  right. split; [done|]. by exists ps.
Qed.

Lemma path_segments_are_plain_witness :
  ("field1" ≠ "" ∧ has_char "/" "field1" = false) ∨
  (code (RawError "PATTERN" None "m1" "#//field1/") = "OBJECT_MISSING_REQUIRED_PROPERTY" ∧
   ∃ ps, params (RawError "PATTERN" None "m1" "#//field1/") = Some ps ∧ "field1" ∈ ps).
Proof.
  apply (path_segments_are_plain (RawError "PATTERN" None "m1" "#//field1/") "field1").
  apply (bool_decide_unpack _). vm_compute. exact I.
Defined.

(** X2: a slash at the end of the path of an error does not change the
    segments extracted from it. *)
Theorem trailing_slash_is_ignored (c : string) (ps : option (list string))
    (m p : string) :
  Validator.extractPathSegments (RawError c ps m (String.append p "/"))
  = Validator.extractPathSegments (RawError c ps m p).
Proof.
  unfold Validator.extractPathSegments. cbn [path code params].
  change "/"%string with (String "/"%char EmptyString) at 1.
  rewrite (split_trailing "/" p), List.filter_app. simpl. by rewrite app_nil_r.
Qed.

(** ** More on [resolveOrCreateTargetFromPath] and [saveToPath] *)

Section ResolveMore.
Import Validator.
Implicit Types (h : heap) (l target : loc) (o : object) (path rest : list string).

Lemma resolve_existing path : ∀ h target node,
  own_names path = true → walk h target path = Some node →
  resolveOrCreateTargetFromPath (Some target) path h = Ret (Some node) h.
Proof.
  induction path as [|segment rest IH]; intros h target node Hown; simpl walk.
  - by intros [= <-].
  - apply own_names_cons in Hown as [Hsegment Hrest].
    destruct (h !! target) as [o|] eqn:Ho; [|done].
    destruct (props_of o !! segment) as [l1|] eqn:Hk; [|done].
    intros Hw. rewrite (resolve_present h target o segment l1) by done. by apply IH.
Qed.

Lemma resolve_unallocated h target segment rest :
  h !! target = None →
  resolveOrCreateTargetFromPath (Some target) (segment :: rest) h = Stuck.
Proof.
  intros Ht. cbn [resolveOrCreateTargetFromPath].
  unfold bind at 1. unfold Js.get, Js.beyond, bind, Js.deref.
  destruct (own_name segment); [|done]. by rewrite Ht.
Qed.

Lemma resolve_size path : ∀ h target v h',
  own_names path = true →
  resolveOrCreateTargetFromPath (Some target) path h = Ret v h' →
  size h' = size h + (length path - present h target path) ∧
  dom h ⊆ dom h'.
Proof.
  induction path as [|segment rest IH]; intros h target v h' Hown Hrun.
  { simpl in Hrun. injection Hrun as <- <-. simpl. split; [lia|done]. }
  apply own_names_cons in Hown as [Hsegment Hrest].
  destruct (h !! target) as [o|] eqn:Ho;
    [|by rewrite (resolve_unallocated h target) in Hrun].
  cbn [present length]. rewrite Ho.
  destruct (props_of o !! segment) as [l1|] eqn:Hk.
  - rewrite (resolve_present h target o segment l1) in Hrun by done.
    destruct (IH _ _ _ _ Hrest Hrun) as [Hsize Hdom]. split; [|done].
    rewrite Hsize. pose proof (present_le h l1 rest). lia.
  - rewrite (resolve_missing h target o segment) in Hrun by done.
    set (n0 := fresh (dom h)) in *.
    assert (h !! n0 = None) as Hn0 by apply fresh_unused.
    assert (target ≠ n0) as Hne by congruence.
    destruct (IH _ _ _ _ Hrest Hrun) as [Hsize Hdom].
    assert (present (<[target := set_prop o segment n0]> (<[n0 := new_node rest]> h))
              n0 rest = 0) as Hpresent.
    { destruct rest as [|k rest']; [done|]. simpl.
      rewrite lookup_insert_ne, lookup_insert_eq by done. simpl.
      by rewrite lookup_empty. }
    rewrite Hpresent in Hsize. rewrite Hsize. split.
    + rewrite map_size_insert_Some
        by (rewrite lookup_insert_ne by done; by eexists).
      rewrite map_size_insert_None by done. lia.
    + etrans; [|exact Hdom]. rewrite !dom_insert.
      intros x Hx. apply elem_of_union_r. by apply elem_of_union_r.
Qed.

End ResolveMore.

(** X3: for a path of names read as own properties, resolving a path that
    is already there returns the node at its end and writes nothing; and
    whatever the first resolution had to create, a second resolution of the
    same path returns the same node and leaves the store as the first one
    left it. *)
Theorem resolveOrCreate_is_idempotent
    (h : heap) (target : loc) (path : list string) :
  own_names path = true → closed h → is_Some (h !! target) →
  ∃ node h',
    Validator.resolveOrCreateTargetFromPath (Some target) path h
      = Ret (Some node) h' ∧
    Validator.resolveOrCreateTargetFromPath (Some target) path h'
      = Ret (Some node) h' ∧
    (is_Some (walk h target path) → h' = h ∧ walk h target path = Some node).
Proof.
  intros Hown Hc Ht.
  destruct (resolve_spec path h target Hc Ht Hown)
    as (node & h' & Hrun & _ & _ & Hw & _ & _ & _).
  exists node, h'. split_and!; [done|by apply resolve_existing|].
  intros [node0 Hw0].
  pose proof (resolve_existing path h target node0 Hown Hw0) as Hrun0.
  rewrite Hrun in Hrun0. injection Hrun0 as -> ->. done.
Qed.

Lemma resolveOrCreate_is_idempotent_witness :
  ∃ node h',
    Validator.resolveOrCreateTargetFromPath (Some 3%positive)
      ["category1"; "nestedField1"] example_store = Ret (Some node) h' ∧
    Validator.resolveOrCreateTargetFromPath (Some 3%positive)
      ["category1"; "nestedField1"] h' = Ret (Some node) h' ∧
    (is_Some (walk example_store 3%positive ["category1"; "nestedField1"]) →
     h' = example_store ∧
     walk example_store 3%positive ["category1"; "nestedField1"] = Some node).
Proof.
  apply (resolveOrCreate_is_idempotent example_store 3%positive
           ["category1"; "nestedField1"]).
  - reflexivity.
  - apply (bool_decide_unpack _). vm_compute. exact I.
  - apply (bool_decide_unpack _). vm_compute. exact I.
Defined.

(** X4: for a path of names read as own properties,
    [resolveOrCreateTargetFromPath] creates one object for each segment of
    the path that was missing, and no other: the store grows by the length of
    the path less the number of leading segments that were present, and no
    location of the store is given up. *)
Theorem resolveOrCreate_allocates_missing_segments
    (h : heap) (target : loc) (path : list string) :
  own_names path = true → closed h → is_Some (h !! target) →
  ∃ node h',
    Validator.resolveOrCreateTargetFromPath (Some target) path h
      = Ret (Some node) h' ∧
    size h' = size h + (length path - present h target path) ∧
    dom h ⊆ dom h'.
Proof.
  intros Hown Hc Ht.
  destruct (resolve_spec path h target Hc Ht Hown) as (node & h' & Hrun & _).
  exists node, h'. split; [done|]. by eapply resolve_size.
Qed.

Lemma resolveOrCreate_allocates_missing_segments_witness :
  ∃ node h',
    Validator.resolveOrCreateTargetFromPath (Some 3%positive)
      ["field1"; "deeper"; "deepest"] example_store = Ret (Some node) h' ∧
    size h' = size example_store + (3 - 1) ∧
    dom example_store ⊆ dom h'.
Proof.
  apply (resolveOrCreate_allocates_missing_segments example_store 3%positive
           ["field1"; "deeper"; "deepest"]).
  - reflexivity.
  - apply (bool_decide_unpack _). vm_compute. exact I.
  - apply (bool_decide_unpack _). vm_compute. exact I.
Defined.

(** X5: [saveToPath] reads the member of the error map it needs and only that
    one.  Without [fieldErrors] a message for a field fails with a
    [TypeError], without [documentErrors] a message for the document does,
    and so does every call on an undefined error map; each of these failures
    leaves the store as it was.  A message for the document is still saved
    when only [fieldErrors] is missing. *)
Theorem saveToPath_reads_one_member
    (h : heap) (errorMap : loc) (o : object) (path : list string) (msg : string) :
  h !! errorMap = Some o →
  (props_of o !! "fieldErrors" = None → path ≠ [] →
   Validator.saveToPath path msg (Some errorMap) h = Throw TypeError h) ∧
  (props_of o !! "documentErrors" = None →
   Validator.saveToPath [] msg (Some errorMap) h = Throw TypeError h) ∧
  (∀ de es ps, props_of o !! "documentErrors" = Some de →
     h !! de = Some (Arr es ps) →
     Validator.saveToPath [] msg (Some errorMap) h
     = Ret tt (<[de := Arr (es ++ [msg]) ps]> h)) ∧
  Validator.saveToPath path msg None h = Throw TypeError h.
Proof.
  intros Ho. unfold Validator.saveToPath. split_and!.
  - intros Hfe Hpath.
    rewrite (bind_Ret _ _ h None h) by (by rewrite (get_Some _ _ o), Hfe).
    rewrite bool_decide_eq_true_2 by (destruct path; [done|simpl; lia]).
    destruct path as [|segment rest]; [done|]. reflexivity.
  - intros Hde.
    rewrite (bind_Ret _ _ h (props_of o !! "fieldErrors") h)
      by (by rewrite (get_Some _ _ o)).
    rewrite bool_decide_eq_false_2 by (simpl; lia).
    by rewrite (bind_Ret _ _ h None h) by (by rewrite (get_Some _ _ o), Hde).
  - intros de es ps Hde Harr.
    rewrite (bind_Ret _ _ h (props_of o !! "fieldErrors") h)
      by (by rewrite (get_Some _ _ o)).
    rewrite bool_decide_eq_false_2 by (simpl; lia).
    rewrite (bind_Ret _ _ h (Some de) h) by (by rewrite (get_Some _ _ o), Hde).
    by apply push_array.
  - reflexivity.
Qed.

Lemma saveToPath_reads_one_member_witness :
  Validator.saveToPath ["field1"] "m1" (Some 1%positive) document_only_store
  = Throw TypeError document_only_store ∧
  Validator.saveToPath [] "m1" (Some 1%positive) document_only_store
  = Ret tt (<[2%positive := Arr (["m0"] ++ ["m1"]) ∅]> document_only_store).
Proof.
  destruct (saveToPath_reads_one_member document_only_store 1%positive
              (Obj (<["documentErrors" := 2%positive]> ∅)) ["field1"] "m1")
    as (Hfield & _ & Hdoc & _); [reflexivity|].
  split.
  - apply Hfield; [reflexivity|discriminate].
  - apply (Hdoc 2%positive ["m0"] ∅); reflexivity.
Defined.

(** ** The report and the store it is built in *)

Section Frame.
Import Validator.
Implicit Types (h : heap) (l t root fe de : loc) (o : object).
Implicit Types (e : raw_error) (es : list raw_error) (q : list string).

Lemma walk_prefix h l q r x : walk h l (q ++ r) = Some x → is_Some (walk h l q).
Proof. rewrite walk_app. destruct (walk h l q); [by eexists|done]. Qed.

(** The store once the empty report is built, with what it has to do with
    the store before. *)
Lemma sanitize_start_frame errors h0 :
  closed h0 →
  ∃ root fe de h,
    sanitizeValidationErrors errors h0
    = (Js.each errors (λ error, sanitizeError error (Some root)) ;;
       ret (Some root)) h ∧
    report_inv [] h root fe de ∧ report_frame h0 [] h root fe de.
Proof.
  intros Hc0.
  set (de := fresh (dom h0)). set (h1 := <[de := Arr [] ∅]> h0).
  set (fe := fresh (dom h1)). set (h2 := <[fe := Obj ∅]> h1).
  set (root := fresh (dom h2)).
  set (oroot := Obj (<["documentErrors" := de]> (<["fieldErrors" := fe]> ∅))).
  set (h := <[root := oroot]> h2).
  assert (h0 !! de = None) as Hde0 by apply fresh_unused.
  assert (h1 !! fe = None) as Hfe1 by apply fresh_unused.
  assert (h2 !! root = None) as Hroot2 by apply fresh_unused.
  assert (h0 !! fe = None) as Hfe0.
  { unfold h1 in Hfe1. by apply lookup_insert_None in Hfe1 as [? _]. }
  assert (h0 !! root = None) as Hroot0.
  { unfold h2, h1 in Hroot2. apply lookup_insert_None in Hroot2 as [Hroot1 _].
    by apply lookup_insert_None in Hroot1 as [? _]. }
  assert (root ≠ fe) as Hrf.
  { intros Heq. unfold h2 in Hroot2. by rewrite Heq, lookup_insert_eq in Hroot2. }
  assert (h !! fe = Some (Obj ∅)) as Hfe.
  { unfold h, h2. by rewrite lookup_insert_ne, lookup_insert_eq. }
  assert (∀ q l, walk h fe q = Some l → q = [] ∧ l = fe) as Hwalk.
  { intros [|k q] l; simpl; [by intros [= <-]|]. by rewrite Hfe. }
  destruct (sanitize_start [] h0 Hc0) as (root' & fe' & de' & h' & Hrun & Hinv).
  assert (root' = root ∧ h' = h) as [-> ->].
  { change (Ret (Some root) h = Ret (Some root') h') in Hrun.
    by injection Hrun as -> ->. }
  assert (de' = de ∧ fe' = fe) as [-> ->].
  { pose proof (inv_root _ _ _ _ _ Hinv) as Hroot.
    unfold h in Hroot. rewrite lookup_insert_eq in Hroot.
    apply (f_equal (from_option props_of ∅)) in Hroot.
    unfold oroot in Hroot. cbn [from_option props_of] in Hroot.
    rename Hroot into Hprops. split.
    - apply (f_equal (λ m : gmap string loc, m !! "documentErrors")) in Hprops.
      rewrite !lookup_insert_eq in Hprops. congruence.
    - apply (f_equal (λ m : gmap string loc, m !! "fieldErrors")) in Hprops.
      rewrite !(lookup_insert_ne _ "documentErrors" "fieldErrors") in Hprops by done.
      rewrite !lookup_insert_eq in Hprops. congruence. }
  exists root, fe, de, h. split_and!; [done|done|]. split.
  - intros l o Hl. unfold h, h2, h1.
    rewrite !lookup_insert_ne by congruence. done.
  - done.
  - done.
  - intros q l Hw. by destruct (Hwalk q l Hw) as [_ ->].
  - by exists ∅.
  - intros q l ms ps Hq Hw. by destruct (Hwalk q l Hw).
Qed.

(** Saving one more error: whether it succeeds is decided by the errors
    saved before, and the objects of the first store are out of reach. *)
Lemma sanitizeError_frame h0 es e h root fe de :
  report_inv es h root fe de → report_frame h0 es h root fe de →
  own_names (extractPathSegments e) = true →
  (∃ h', sanitizeError e (Some root) h = Ret tt h' ∧
         report_frame h0 (es ++ [e]) h' root fe de ∧
         ¬ created_as_object es e)
  ∨ (sanitizeError e (Some root) h = Throw TypeError h ∧ created_as_object es e).
Proof.
  intros [Hc Hroot Hfe Htree Hdoc_ap Hroot_ap Hdoc Hmsg Harr Hobj]
         [Hkept Hr0 Hd0 Hf0 Hfobj Hconv] Hown.
  assert (error_map h root fe de) as Hmap.
  { eexists. split; [done|]. simpl. split.
    - by rewrite lookup_insert_ne, lookup_insert_eq.
    - apply lookup_insert_eq. }
  assert (fe ≠ de) as Hfd by (intros ->; by destruct (Hdoc_ap [])).
  unfold sanitizeError. set (p := extractPathSegments e) in *.
  set (msg := message e).
  destruct (decide (p = [])) as [Hp|Hp].
  - rewrite Hp, (save_document h root fe de) by done.
    rewrite (push_array h de _ _ msg Hdoc). left. eexists. split; [done|].
    split; [|by intros [? _]].
    assert (∀ l q, walk (<[de := Arr (messages_at [] es ++ [msg]) ∅]> h) l q
                   = walk h l q) as Hwe by (intros; by apply walk_push_eq).
    split.
    + intros l o Hl. rewrite lookup_insert_ne; [by apply Hkept|]. congruence.
    + done.
    + done.
    + intros q l. rewrite Hwe. apply Hf0.
    + destruct Hfobj as [ps Hps]. exists ps. by rewrite lookup_insert_ne.
    + intros q l ms ps Hq. rewrite Hwe. intros Hw Hl.
      assert (l ≠ de) as Hld by (intros ->; by destruct (Hdoc_ap q)).
      rewrite lookup_insert_ne in Hl by done.
      destruct (Hconv q l ms ps Hq Hw Hl) as (e0 & He0 & ?).
      exists e0. split; [apply elem_of_app; by left|done].
  - rewrite (save_field h root fe de p msg Hmap Hp).
    destruct (resolve_spec p h fe Hc Hfe Hown)
      as (t & h1 & Hrun & Hc1 & Hext & Hw & Hnew & Hempty & Hcr).
    rewrite (bind_Ret _ _ h (Some t) h1 Hrun).
    destruct (resolve_tree p h fe [] fe t h1 Hc Hfe Htree eq_refl Hrun Hown)
      as (Htree1 & Hw1 & Hf1).
    assert (is_Some (h1 !! fe)) as Hfe1.
    { destruct Hfe as [o Ho]. destruct (Hext _ _ Ho) as (? & ? & _). by eexists. }
    assert (is_Some (h1 !! t)) as Ht1 by by eapply walk_allocated.
    assert (t ≠ fe) as Htf.
    { intros ->. by pose proof (Htree1 p [] fe Hw eq_refl). }
    assert (h0 !! t = None) as Ht0.
    { destruct (Hw1 p t Hw) as [Hold|[Hnone _]]; [by eapply Hf0|].
      destruct (h0 !! t) as [o|] eqn:Ho; [|done]. apply Hkept in Ho. congruence. }
    destruct Ht1 as [[ps|ms ps] Ht1].
    + right. rewrite (push_object h1 t ps msg Ht1).
      destruct Hnew as [[-> Hw0]|[_ Hn]]; [|congruence].
      split; [done|]. split; [done|]. split.
      * apply Forall_forall. intros e' He' Heq.
        destruct (Harr e' He') as (l & ms & ps' & Hwl & Hl); [by rewrite Heq|].
        rewrite Heq in Hwl. fold p in Hwl. congruence.
      * apply Exists_exists.
        destruct (Hobj p t ps Hp Hw0 Ht1) as (e0 & He0 & Hpre & _). by exists e0.
    + left. rewrite (push_array h1 t ms ps msg Ht1). eexists. split; [done|].
      assert (∀ l q, walk (<[t := Arr (ms ++ [msg]) ps]> h1) l q = walk h1 l q)
        as Hwe by (intros; by apply walk_push_eq).
      split; [split|].
      * intros l o Hl. rewrite lookup_insert_ne by congruence.
        destruct (Hf1 l o (Hkept l o Hl)) as [?|[q Hq]]; [done|].
        apply Hf0 in Hq. congruence.
      * done.
      * done.
      * intros q l. rewrite Hwe. intros Hq.
        destruct (Hw1 q l Hq) as [Hold|[Hnone _]]; [by eapply Hf0|].
        destruct (h0 !! l) as [o|] eqn:Ho; [|done]. apply Hkept in Ho. congruence.
      * destruct Hfobj as [ps0 Hps0].
        destruct (Hext _ _ Hps0) as (o' & Ho' & Ha & _).
        destruct o' as [ps1|]; [|done]. exists ps1. by rewrite lookup_insert_ne.
      * intros q l ms' ps' Hq. rewrite Hwe. intros Hwq Hl.
        destruct (decide (l = t)) as [->|Hlt].
        { exists e. split; [apply elem_of_app; right; by apply list_elem_of_singleton|].
          fold p. by apply (Htree1 p q t). }
        rewrite lookup_insert_ne in Hl by done.
        destruct (Hw1 q l Hwq) as [Hold|[Hnone Hpre]].
        -- destruct (walk_allocated h fe q l Hc Hfe Hold) as [o Ho].
           destruct (Hext _ _ Ho) as (o1 & Ho1 & Ha1 & _).
           assert (o1 = Arr ms' ps') as -> by congruence.
           destruct o as [|ms0 ps0]; [done|].
           destruct (Hconv q l ms0 ps0 Hq Hold Ho) as (e0 & He0 & ?).
           exists e0. split; [apply elem_of_app; by left|done].
        -- exfalso. simpl in Hpre.
           assert (q ≠ p) as Hqp by (intros ->; congruence).
           destruct q as [|k q']; [done|].
           assert (length (k :: q') < length p) as Hlen.
           { pose proof (prefix_length _ _ Hpre) as Hle.
             destruct (decide (length (k :: q') = length p)) as [Heq|]; [|lia].
             destruct Hqp. destruct Hpre as [r ->].
             rewrite length_app in Heq. destruct r; [by rewrite app_nil_r|].
             simpl in Heq. lia. }
           assert (take (S (length q')) p = k :: q') as Htake.
           { destruct Hpre as [r ->]. change (S (length q')) with (length (k :: q')).
             by rewrite take_app_length. }
           assert (walk h fe (k :: q') = None) as Hmiss.
           { destruct (walk h fe (k :: q')) as [l'|] eqn:Hold; [|done].
             pose proof (walk_extends h h1 fe _ l' Hext Hold) as Hold1.
             destruct (walk_allocated h fe _ l' Hc Hfe Hold) as [? ?]. congruence. }
           destruct (Hcr (length q')) as (l2 & o2 & Hw2 & _ & Ho2 & Hkind).
           { by rewrite Htake. }
           { simpl in Hlen. lia. }
           rewrite Htake in Hw2.
           assert (l2 = l) as -> by congruence.
           destruct (decide (S (length q') = length p)) as [Heq|_].
           ++ simpl in Hlen. lia.
           ++ destruct Hkind as [Hk _]. rewrite Hl in Ho2. by injection Ho2 as <-.
      * intros (_ & Hall & Hex). apply Exists_exists in Hex as (e0 & He0 & Hpre).
        fold p in Hpre.
        assert (extractPathSegments e0 ≠ []) as Hp0.
        { intros Heq. rewrite Heq in Hpre. by apply prefix_nil_inv in Hpre. }
        destruct (Harr e0 He0 Hp0) as (l0 & ms0 & ps0 & Hw0 & _).
        destruct Hpre as [r Hr]. rewrite Hr in Hw0.
        apply walk_prefix in Hw0 as [t' Ht'].
        destruct Hnew as [[-> Hwold]|[Hnone _]].
        -- destruct (Hconv p t ms ps Hp Hwold Ht1) as (e' & He' & Heq).
           rewrite Forall_forall in Hall. by destruct (Hall e' He').
        -- pose proof (walk_extends h h1 fe p t' Hext Ht') as Ht1'.
           destruct (walk_allocated h fe p t' Hc Hfe Ht') as [? ?]. congruence.
Qed.

Lemma each_frame h0 es2 : ∀ es1 h root fe de,
  report_inv es1 h root fe de → report_frame h0 es1 h root fe de →
  own_paths es2 = true →
  (∃ h', Js.each es2 (λ error, sanitizeError error (Some root)) h = Ret tt h' ∧
         report_inv (es1 ++ es2) h' root fe de ∧
         report_frame h0 (es1 ++ es2) h' root fe de ∧
         pushes_succeed es1 es2)
  ∨ (∃ h', Js.each es2 (λ error, sanitizeError error (Some root)) h
           = Throw TypeError h' ∧
           (∀ l o, h0 !! l = Some o → h' !! l = Some o) ∧
           ¬ pushes_succeed es1 es2).
Proof.
  induction es2 as [|e es2 IH]; intros es1 h root fe de Hinv Hfr Hown.
  { left. exists h. rewrite app_nil_r. done. }
  apply own_paths_cons in Hown as [He Hes2].
  cbn [Js.each pushes_succeed].
  destruct (sanitizeError_frame h0 es1 e h root fe de Hinv Hfr He)
    as [(h1 & Hrun & Hfr1 & Hok)|(Hrun & Hbad)].
  - destruct (sanitizeError_inv es1 e h root fe de Hinv He)
      as [(h1' & Hrun' & Hinv1)|(Hrun' & _)]; [|congruence].
    assert (h1' = h1) as -> by congruence.
    rewrite (bind_Ret _ _ h tt h1 Hrun).
    destruct (IH (es1 ++ [e]) h1 root fe de Hinv1 Hfr1 Hes2)
      as [(h' & Hrun2 & Hinv' & Hfr' & Hrest)|(h' & Hrun2 & Hkept & Hrest)].
    + left. exists h'. rewrite <- !app_assoc in *. done.
    + right. exists h'. split_and!; [done|done|]. by intros [_ ?].
  - right. exists h. unfold bind. rewrite Hrun.
    split_and!; [done|by destruct Hfr|]. by intros [? _].
Qed.

(** The whole of [sanitizeValidationErrors]. *)
Lemma sanitize_frame errors h0 :
  closed h0 → own_paths errors = true →
  (∃ root fe de h,
     sanitizeValidationErrors errors h0 = Ret (Some root) h ∧
     report_inv errors h root fe de ∧ report_frame h0 errors h root fe de ∧
     pushes_succeed [] errors)
  ∨ (∃ h, sanitizeValidationErrors errors h0 = Throw TypeError h ∧
          (∀ l o, h0 !! l = Some o → h !! l = Some o) ∧
          ¬ pushes_succeed [] errors).
Proof.
  intros Hc0 Hown.
  destruct (sanitize_start_frame errors h0 Hc0)
    as (root & fe & de & h & -> & Hinv & Hfr).
  destruct (each_frame h0 errors [] h root fe de Hinv Hfr Hown)
    as [(h' & Hrun & Hinv' & Hfr' & Hok)|(h' & Hrun & Hkept & Hbad)].
  - left. exists root, fe, de, h'. by rewrite (bind_Ret _ _ h tt h' Hrun).
  - right. exists h'. unfold bind. by rewrite Hrun.
Qed.

(** From the root of a report, there is the root, [documentErrors] and what
    is below [fieldErrors]. *)
Lemma report_walk es h root fe de p l :
  report_inv es h root fe de → walk h root p = Some l →
  (p = [] ∧ l = root) ∨ (p = ["documentErrors"] ∧ l = de)
  ∨ (∃ q, p = "fieldErrors" :: q ∧ walk h fe q = Some l).
Proof.
  intros Hinv Hw. destruct p as [|k p]; [injection Hw as <-; by left|].
  simpl in Hw. rewrite (inv_root _ _ _ _ _ Hinv) in Hw. simpl in Hw.
  destruct (decide (k = "documentErrors")) as [->|Hkd].
  - rewrite lookup_insert_eq in Hw. right; left.
    destruct p as [|k' p]; [by injection Hw as <-|].
    simpl in Hw. by rewrite (inv_document _ _ _ _ _ Hinv) in Hw.
  - rewrite lookup_insert_ne in Hw by done.
    destruct (decide (k = "fieldErrors")) as [->|Hkf].
    + rewrite lookup_insert_eq in Hw. right; right. by exists p.
    + by rewrite lookup_insert_ne in Hw.
Qed.

Lemma report_tree es h root fe de :
  report_inv es h root fe de → tree_shaped h root.
Proof.
  intros Hinv p q l Hp Hq.
  assert (root ≠ de) as Hrd.
  { intros ->. pose proof (inv_root _ _ _ _ _ Hinv) as Hr.
    by rewrite (inv_document _ _ _ _ _ Hinv) in Hr. }
  pose proof (report_walk es h root fe de p l Hinv Hp) as Hcp.
  pose proof (report_walk es h root fe de q l Hinv Hq) as Hcq.
  destruct Hcp as [[-> Hlp]|[[-> Hlp]|(p' & -> & Hp')]],
           Hcq as [[-> Hlq]|[[-> Hlq]|(q' & -> & Hq')]];
    try done; try congruence.
  - subst l. by destruct (inv_root_apart _ _ _ _ _ Hinv q').
  - subst l. by destruct (inv_document_apart _ _ _ _ _ Hinv q').
  - subst l. by destruct (inv_root_apart _ _ _ _ _ Hinv p').
  - subst l. by destruct (inv_document_apart _ _ _ _ _ Hinv p').
  - f_equal. by eapply (inv_tree _ _ _ _ _ Hinv).
Qed.

End Frame.

(** X6: for errors whose path segments are read as own properties, whether
    [sanitizeValidationErrors] returns is decided by the order of the errors
    alone.  It returns a report exactly when no error is reported
    at a node that was created as an object, that is, when for no error the
    first of the errors at or below its field is one below it; otherwise it
    fails with the [TypeError] of [push], and nothing else can happen.  An
    error for a field may well come after an error below that field when an
    error for the field itself came first. *)
Theorem sanitize_outcome_is_decided_by_order
    (errors : list raw_error) (h0 : heap) :
  own_paths errors = true → closed h0 →
  (pushes_succeed [] errors ↔
   ∃ root h, Validator.sanitizeValidationErrors errors h0 = Ret (Some root) h) ∧
  (¬ pushes_succeed [] errors ↔
   ∃ h, Validator.sanitizeValidationErrors errors h0 = Throw TypeError h).
Proof.
  intros Hown Hc0.
  destruct (sanitize_frame errors h0 Hc0 Hown)
    as [(root & fe & de & h & Hrun & _ & _ & Hok)|(h & Hrun & _ & Hbad)].
  - split; split.
    + intros _. by exists root, h.
    + done.
    + done.
    + intros (h' & Hrun'). by rewrite Hrun in Hrun'.
  - split; split.
    + done.
    + intros (root & h' & Hrun'). by rewrite Hrun in Hrun'.
    + intros _. by exists h.
    + done.
Qed.

Lemma sanitize_outcome_is_decided_by_order_witness :
  (∃ root h,
     Validator.sanitizeValidationErrors example_nested ∅ = Ret (Some root) h) ∧
  (∃ h,
     Validator.sanitizeValidationErrors example_child_first ∅ = Throw TypeError h).
Proof.
  split.
  - apply (sanitize_outcome_is_decided_by_order example_nested ∅).
    + reflexivity.
    + apply (bool_decide_unpack _). vm_compute. exact I.
    + apply (bool_decide_unpack _). vm_compute. exact I.
  - apply (sanitize_outcome_is_decided_by_order example_child_first ∅).
    + reflexivity.
    + apply (bool_decide_unpack _). vm_compute. exact I.
    + apply (bool_decide_unpack _). vm_compute. exact I.
Defined.

(** The errors of [example_nested] are saved although the last of them is
    reported for a field after an error below that field. *)
Example nested_is_saved :
  ¬ parents_first [] example_nested ∧ pushes_succeed [] example_nested.
Proof. split; apply (bool_decide_unpack _); vm_compute; exact I. Qed.

(** X7: for errors whose path segments are read as own properties,
    [sanitizeValidationErrors] writes to the objects it creates and to no
    other: whether it returns or fails, every object the store held is found
    as it was, and the report it returns is none of them. *)
Theorem sanitize_keeps_the_store
    (errors : list raw_error) (h0 : heap) (l : loc) (o : object) :
  own_paths errors = true → closed h0 → h0 !! l = Some o →
  match Validator.sanitizeValidationErrors errors h0 with
  | Ret v h => h !! l = Some o ∧ v ≠ Some l
  | Throw ex h => ex = TypeError ∧ h !! l = Some o
  | Stuck => False
  end.
Proof.
  intros Hown Hc0 Hl.
  destruct (sanitize_frame errors h0 Hc0 Hown)
    as [(root & fe & de & h & -> & _ & Hfr & _)|(h & -> & Hkept & _)].
  - split; [by apply (frame_kept _ _ _ _ _ _ Hfr)|].
    intros [= ->]. by rewrite (frame_root _ _ _ _ _ _ Hfr) in Hl.
  - split; [done|by apply Hkept].
Qed.

Lemma sanitize_keeps_the_store_witness :
  match Validator.sanitizeValidationErrors example_errors example_store with
  | Ret v h => h !! 4%positive = Some (Arr ["m1"] ∅) ∧ v ≠ Some 4%positive
  | Throw ex h => ex = TypeError ∧ h !! 4%positive = Some (Arr ["m1"] ∅)
  | Stuck => False
  end.
Proof.
  apply (sanitize_keeps_the_store example_errors example_store 4%positive
           (Arr ["m1"] ∅)).
  - reflexivity.
  - apply (bool_decide_unpack _). vm_compute. exact I.
  - reflexivity.
Defined.

(** X8: for errors whose path segments are read as own properties, the
    report [sanitizeValidationErrors] returns is an object with the two
    members [documentErrors] and [fieldErrors], [fieldErrors] is an object,
    and from the root no object is reached by two paths.  Below
    [fieldErrors] there is nothing but what the errors name: every node lies
    on the path of an error, it is an array exactly when an error is reported
    at its very path, and then it holds the messages of those errors, so no
    array there is empty. *)
Theorem report_holds_what_was_reported (errors : list raw_error) (h0 : heap) :
  own_paths errors = true → closed h0 → pushes_succeed [] errors →
  ∃ root fe de h,
    Validator.sanitizeValidationErrors errors h0 = Ret (Some root) h ∧
    h !! root = Some (Obj (<["documentErrors" := de]>
                            (<["fieldErrors" := fe]> ∅))) ∧
    (∃ ps, h !! fe = Some (Obj ps)) ∧
    closed h ∧ tree_shaped h root ∧
    ∀ q l, q ≠ [] → walk h fe q = Some l →
      ∃ o, h !! l = Some o ∧
           (∃ e, e ∈ errors ∧ q `prefix_of` Validator.extractPathSegments e) ∧
           (is_array o = true ↔
            ∃ e, e ∈ errors ∧ Validator.extractPathSegments e = q) ∧
           elems_of o = messages_at q errors ∧
           (is_array o = true → elems_of o ≠ []).
Proof.
  intros Hown Hc0 Hok.
  destruct (sanitize_frame errors h0 Hc0 Hown)
    as [(root & fe & de & h & Hrun & Hinv & Hfr & _)|(h & _ & _ & Hbad)]; [|done].
  exists root, fe, de, h.
  split_and!; [done|by destruct Hinv|by destruct Hfr|by destruct Hinv|
               by eapply report_tree|].
  intros q l Hq Hw.
  destruct (walk_allocated h fe q l (inv_closed _ _ _ _ _ Hinv)
              (inv_fields _ _ _ _ _ Hinv) Hw) as [o Ho].
  pose proof (inv_messages _ _ _ _ _ Hinv q l Hq Hw) as Hst.
  unfold stored in Hst. rewrite Ho in Hst. simpl in Hst.
  exists o. split; [done|].
  assert (is_array o = true → ∃ e, e ∈ errors ∧ Validator.extractPathSegments e = q)
    as Harr.
  { destruct o as [ps|ms ps]; [done|]. intros _.
    by apply (frame_arrays _ _ _ _ _ _ Hfr q l ms ps). }
  split_and!; [|split; [done|]|done|].
  - destruct o as [ps|ms ps].
    + destruct (inv_objects _ _ _ _ _ Hinv q l ps Hq Hw Ho) as (e & He & Hpre & _).
      by exists e.
    + destruct (Harr eq_refl) as (e & He & <-). by exists e.
  - intros (e & He & <-).
    destruct (inv_arrays _ _ _ _ _ Hinv e He Hq) as (l' & ms & ps & Hw' & Hl').
    assert (l' = l) as -> by congruence.
    rewrite Ho in Hl'. by injection Hl' as ->.
  - intros Ha. destruct (Harr Ha) as (e & He & Heq). rewrite Hst.
    unfold messages_at. intros Hnil. apply fmap_nil_inv in Hnil.
    assert (e ∈ filter (λ e, Validator.extractPathSegments e = q) errors) as Hin
      by by apply list_elem_of_filter.
    rewrite Hnil in Hin. by apply elem_of_nil in Hin.
Qed.

Lemma report_holds_what_was_reported_witness :
  ∃ root fe de h,
    Validator.sanitizeValidationErrors example_nested ∅ = Ret (Some root) h ∧
    h !! root = Some (Obj (<["documentErrors" := de]>
                            (<["fieldErrors" := fe]> ∅))) ∧
    (∃ ps, h !! fe = Some (Obj ps)) ∧
    closed h ∧ tree_shaped h root ∧
    ∀ q l, q ≠ [] → walk h fe q = Some l →
      ∃ o, h !! l = Some o ∧
           (∃ e, e ∈ example_nested ∧ q `prefix_of` Validator.extractPathSegments e) ∧
           (is_array o = true ↔
            ∃ e, e ∈ example_nested ∧ Validator.extractPathSegments e = q) ∧
           elems_of o = messages_at q example_nested ∧
           (is_array o = true → elems_of o ≠ []).
Proof.
  apply (report_holds_what_was_reported example_nested ∅).
  - reflexivity.
  - apply (bool_decide_unpack _). vm_compute. exact I.
  - apply (bool_decide_unpack _). vm_compute. exact I.
Defined.

(** ** [validate] on content the validator rejects *)

Section ComponentMore.
Context {schema content : Type} `{ZSchema schema content} `{Truthy schema}.
Implicit Types (w : @world schema content) (key : string) (data : content).

(** X9: when the value read at the key is truthy and the validator accepts
    the registered schemas and rejects the content, with errors whose path
    segments are read as own properties, [validate] never returns
    [undefined].  It asks the validator for its errors once, after the two
    checks, and hands them to [sanitizeValidationErrors]: it returns the
    report built from them, an object the store did not hold, or fails with
    a [TypeError] where that function does.  The objects of the store are as
    they were. *)
Theorem validate_rejected_content key data w found :
  read_member key (schemaContents w) = Some found →
  member_truthy found = true →
  closed (objects w) →
  let schemas :=
    omap (λ v, lookup_key v (schemaContents w)) (keys (schemaContents w)) in
  let checked := validateSchema schemas getValidator in
  let verdict := validate_content data found checked.2 in
  let errors := getLastErrors verdict.2 in
  checked.1 = true → verdict.1 = false → own_paths errors = true →
  calls (validate key data w).2
  = calls w ++ [CallGetValidator; CallValidateSchema schemas;
                CallValidate data found; CallGetLastErrors] ∧
  (∀ l o, objects w !! l = Some o →
          objects (validate key data w).2 !! l = Some o) ∧
  (validate key data w).1 ≠ Returned None ∧
  (pushes_succeed [] errors →
   ∃ root, (validate key data w).1 = Returned (Some root) ∧
           objects w !! root = None ∧
           Validator.sanitizeValidationErrors errors (objects w)
           = Ret (Some root) (objects (validate key data w).2)) ∧
  (¬ pushes_succeed [] errors → (validate key data w).1 = Raised TypeError).
Proof.
  intros Hread Htruthy Hc schemas checked verdict errors Hschemas Hcontent Hown.
  assert (validate key data w
          = run (Validator.sanitizeValidationErrors errors)
                (World (schemaContents w) (objects w)
                   (calls w ++ [CallGetValidator; CallValidateSchema schemas;
                                CallValidate data found; CallGetLastErrors])))
    as ->.
  { destruct (validate_cases key data w) as [[Hno _]|(found' & Hread' & _ & Hrun)].
    { unfold has_content in Hno. by rewrite Hread, Htruthy in Hno. }
    assert (found' = found) as -> by congruence.
    fold schemas in Hrun. fold checked in Hrun.
    rewrite Hschemas in Hrun. cbv zeta in Hrun. fold verdict in Hrun.
    by rewrite Hcontent in Hrun. }
  unfold run. cbn [objects schemaContents calls].
  destruct (sanitize_frame errors (objects w) Hc Hown)
    as [(root & fe & de & h & -> & _ & Hfr & Hok)|(h & -> & Hkept & Hbad)];
    cbn [fst snd objects schemaContents calls].
  - split_and!; [done|by destruct Hfr|done| |done].
    intros _. exists root. split_and!; [done|by destruct Hfr|done].
  - split_and!; [done|done|done|done|done].
Qed.

(** X16: [validate] raises the missing-schema failure exactly when the value
    read at the key is falsy: a key that is not registered and names no
    inherited member, or a key whose registered document is falsy.  It then
    makes no call on a validator and leaves the world as it found it; for
    every other key it obtains a validator and has the registered schemas
    checked. *)
Theorem validate_refuses_exactly_the_falsy key data w :
  let schemas :=
    omap (λ v, lookup_key v (schemaContents w)) (keys (schemaContents w)) in
  (has_content key w = false ↔
   (lookup_key key (schemaContents w) = None ∧ inherited key = false) ∨
   (∃ s, lookup_key key (schemaContents w) = Some s ∧ truthy s = false)) ∧
  (has_content key w = false →
   validate key data w = (Raised (Failure (FailMessage no_schema_content)), w)) ∧
  (has_content key w = true →
   (validate key data w).1 ≠ Raised (Failure (FailMessage no_schema_content)) ∧
   ∃ later,
     calls (validate key data w).2
     = calls w ++ [CallGetValidator; CallValidateSchema schemas] ++ later).
Proof.
  intros schemas. split_and!.
  - unfold has_content, read_member.
    destruct (lookup_key key (schemaContents w)) as [s|]; simpl.
    + split.
      * intros Hs. right. by exists s.
      * intros [[? _]|(s' & [= <-] & ?)]; done.
    + destruct (inherited key); simpl.
      * split; [done|]. intros [[_ ?]|(s' & ? & _)]; done.
      * split; [|done]. intros _. by left.
  - intros Hno.
    destruct (validate_cases key data w) as [[_ Hrun]|(found & Hread & Htruthy & _)];
      [done|].
    unfold has_content in Hno. by rewrite Hread, Htruthy in Hno.
  - intros Hyes.
    destruct (validate_cases key data w) as [[Hno _]|(found & Hread & _ & Hrun)];
      [congruence|].
    fold schemas in Hrun.
    destruct (validateSchema schemas getValidator).1.
    + cbv zeta in Hrun.
      destruct (validate_content data found _).1.
      * rewrite Hrun. cbn [fst snd calls]. split; [done|].
        by exists [CallValidate data found].
      * rewrite Hrun.
        match goal with
        | |- context [run ?m ?w0] =>
            destruct (run_calls m w0) as [-> _];
            split; [|by exists [CallValidate data found; CallGetLastErrors]];
            unfold run; cbn [objects];
            destruct (m (objects w)) as [v h|e h|] eqn:Hs; [done| |done];
            apply sanitize_type_errors in Hs as ->; done
        end.
    + rewrite Hrun. cbn [fst snd calls]. split; [done|].
      by exists [CallGetLastErrors].
Qed.

End ComponentMore.

Lemma validate_refuses_exactly_the_falsy_witness :
  @validate nat nat example_engine _ "missing.json" 3%nat example_world
  = (Raised (Failure (FailMessage no_schema_content)), example_world) ∧
  @validate nat nat example_engine _ "zero.json" 3%nat falsy_world
  = (Raised (Failure (FailMessage no_schema_content)), falsy_world) ∧
  (@validate nat nat example_engine _ "toString" 3%nat example_world).1
  ≠ Raised (Failure (FailMessage no_schema_content)).
Proof.
  split_and!.
  - apply (@validate_refuses_exactly_the_falsy nat nat example_engine _
             "missing.json" 3%nat example_world). reflexivity.
  - apply (@validate_refuses_exactly_the_falsy nat nat example_engine _
             "zero.json" 3%nat falsy_world). reflexivity.
  - apply (@validate_refuses_exactly_the_falsy nat nat example_engine _
             "toString" 3%nat example_world). reflexivity.
Defined.

Lemma validate_rejected_content_witness :
  calls (@validate nat nat example_engine _ "base.json" 7%nat example_world).2
  = calls example_world
    ++ [CallGetValidator; CallValidateSchema [5; 9]%nat;
        CallValidate 7%nat (Registered 5%nat); CallGetLastErrors] ∧
  ∃ root,
    (@validate nat nat example_engine _ "base.json" 7%nat example_world).1
    = Returned (Some root) ∧
    objects example_world !! root = None.
Proof.
  pose proof (@validate_rejected_content nat nat example_engine _
                "base.json" 7%nat example_world (Registered 5%nat)
                eq_refl eq_refl) as Hv.
  cbv zeta in Hv.
  destruct Hv as (Hcalls & _ & _ & Hreport & _).
  - apply (bool_decide_unpack _). vm_compute. exact I.
  - reflexivity.
  - reflexivity.
  - reflexivity.
  - split; [exact Hcalls|].
    destruct Hreport as (root & Hroot & Hnew & _).
    + apply (bool_decide_unpack _). vm_compute. exact I.
    + by exists root.
Defined.

(** ** Paths in the notation of z-schema *)

Section Notation.
Import Validator.

Lemma split_piece sep p r :
  has_char sep p = false →
  JsString.split sep (String.append p (String sep r)) = p :: JsString.split sep r.
Proof.
  induction p as [|c p IH]; simpl.
  - by rewrite Ascii.eqb_refl.
  - intros Hno. apply orb_false_iff in Hno as [Hc Hp].
    by rewrite Hc, IH.
Qed.

Lemma split_whole sep p :
  has_char sep p = false → JsString.split sep p = [p].
Proof.
  induction p as [|c p IH]; simpl; [done|].
  intros Hno. apply orb_false_iff in Hno as [Hc Hp]. by rewrite Hc, IH.
Qed.

Lemma split_notation segments : ∀ marker,
  has_char "/" marker = false →
  Forall (λ s, has_char "/" s = false) segments →
  JsString.split "/" (path_notation marker segments) = marker :: segments.
Proof.
  induction segments as [|s rest IH]; intros marker Hm Hall; simpl.
  - by apply split_whole.
  - apply Forall_cons in Hall as [Hs Hrest].
    rewrite split_piece by done. f_equal. by apply IH.
Qed.

Lemma filter_nonempty (pieces : list string) :
  Forall (λ s, s ≠ "") pieces → List.filter removeEmptySegments pieces = pieces.
Proof.
  induction pieces as [|s pieces IH]; [done|].
  intros Hall. apply Forall_cons in Hall as [Hs Hrest]. simpl.
  unfold removeEmptySegments at 1.
  rewrite bool_decide_eq_true_2 by (destruct s; [done|simpl; lia]).
  by rewrite IH.
Qed.

Lemma extract_notation c ps m marker segments slash :
  marker ≠ "" → has_char "/" marker = false →
  Forall (λ s, s ≠ "" ∧ has_char "/" s = false) segments →
  extractPathSegments (RawError c ps m (error_path marker segments slash))
  = segments ++ (if String.eqb c "OBJECT_MISSING_REQUIRED_PROPERTY"
                 then default [] ps else []).
Proof.
  intros Hne Hm Hall.
  assert (Forall (λ s, s ≠ "") (marker :: segments)) as Hfull.
  { constructor; [done|]. by eapply Forall_impl; [exact Hall|]; intros s [? _]. }
  assert (List.filter removeEmptySegments
            (JsString.split "/" (error_path marker segments slash))
          = marker :: segments) as Hpieces.
  { unfold error_path. destruct slash.
    - rewrite (split_trailing "/"), List.filter_app, split_notation;
        [|done|by eapply Forall_impl; [exact Hall|]; intros s [_ ?]].
      rewrite filter_nonempty by done. simpl. by rewrite app_nil_r.
    - rewrite split_notation;
        [|done|by eapply Forall_impl; [exact Hall|]; intros s [_ ?]].
      by apply filter_nonempty. }
  unfold extractPathSegments. cbn [path code params]. rewrite Hpieces.
  unfold JsString.slice1. simpl. rewrite drop_0.
  destruct (String.eqb c _); [|by rewrite app_nil_r].
  destruct ps; [done|by rewrite app_nil_r].
Qed.

End Notation.

(** X10: [extractPathSegments] reads back the notation of z-schema.  For a
    path written as a marker followed by segments, each after a slash, where
    the marker and the segments are not empty and hold no slash, it returns
    these segments, whatever the marker is, followed by the parameters of a
    required-property failure.  Nothing in a segment is decoded: a segment
    comes back character for character. *)
Theorem extract_reads_path_notation
    (c m marker : string) (ps : option (list string)) (segments : list string) :
  marker ≠ "" → has_char "/" marker = false →
  Forall (λ s, s ≠ "" ∧ has_char "/" s = false) segments →
  Validator.extractPathSegments (RawError c ps m (path_notation marker segments))
  = segments ++ (if String.eqb c "OBJECT_MISSING_REQUIRED_PROPERTY"
                 then default [] ps else []).
Proof.
  intros Hne Hm Hall. unfold Validator.extractPathSegments. cbn [path code params].
  rewrite split_notation;
    [|done|by eapply Forall_impl; [exact Hall|]; intros s [_ ?]].
  rewrite filter_nonempty.
  - unfold JsString.slice1. simpl. rewrite drop_0.
    destruct (String.eqb c _); [|by rewrite app_nil_r].
    destruct ps; [done|by rewrite app_nil_r].
  - constructor; [done|]. by eapply Forall_impl; [exact Hall|]; intros s [? _].
Qed.

Lemma extract_reads_path_notation_witness :
  Validator.extractPathSegments
    (RawError "OBJECT_MISSING_REQUIRED_PROPERTY" (Some ["required"])
       "Missing required property: required" "#/deep~1slasher")
  = ["deep~1slasher"; "required"].
Proof.
  apply (extract_reads_path_notation "OBJECT_MISSING_REQUIRED_PROPERTY"
           "Missing required property: required" "#" (Some ["required"])
           ["deep~1slasher"]).
  - discriminate.
  - reflexivity.
  - repeat constructor. discriminate.
Defined.

(** X11: for errors whose path segments are read as own properties, an array
    of the report below [fieldErrors] carries a named property exactly when
    an error is reported below the field of the array: the
    messages for the fields below a field that has messages of its own are
    kept in properties of its array, not in its elements.  The array of
    [documentErrors] never carries a property. *)
Theorem report_arrays_with_properties (errors : list raw_error) (h0 : heap) :
  own_paths errors = true → closed h0 → pushes_succeed [] errors →
  ∃ root fe de h,
    Validator.sanitizeValidationErrors errors h0 = Ret (Some root) h ∧
    walk h root ["fieldErrors"] = Some fe ∧
    walk h root ["documentErrors"] = Some de ∧
    (∃ ms, h !! de = Some (Arr ms ∅)) ∧
    ∀ q l ms ps, q ≠ [] → walk h fe q = Some l → h !! l = Some (Arr ms ps) →
      (ps ≠ ∅ ↔
       ∃ e, e ∈ errors ∧ q `prefix_of` Validator.extractPathSegments e ∧
            q ≠ Validator.extractPathSegments e).
Proof.
  intros Hown Hc0 Hok.
  destruct (sanitize_frame errors h0 Hc0 Hown)
    as [(root & fe & de & h & Hrun & Hinv & Hfr & _)|(h & _ & _ & Hbad)]; [|done].
  exists root, fe, de, h.
  split_and!; [done| |by eapply report_document|by destruct Hinv; eexists|].
  { by rewrite (report_field errors h root fe de []). }
  intros q l ms ps Hq Hw Hl. split.
  - intros Hps. apply map_choose in Hps as (k & l1 & Hk).
    assert (walk h fe (q ++ [k]) = Some l1) as Hw1.
    { rewrite walk_app, Hw. simpl. rewrite Hl. simpl. by rewrite Hk. }
    destruct (walk_allocated h fe _ l1 (inv_closed _ _ _ _ _ Hinv)
                (inv_fields _ _ _ _ _ Hinv) Hw1) as [[ps1|ms1 ps1] Hl1].
    + destruct (inv_objects _ _ _ _ _ Hinv (q ++ [k]) l1 ps1) as (e & He & Hpre & _);
        [by destruct q|done|done|].
      exists e. split_and!; [done|by etrans; [apply prefix_app_r|]|].
      intros ->. apply prefix_length in Hpre. rewrite length_app in Hpre.
      simpl in Hpre. lia.
    + destruct (frame_arrays _ _ _ _ _ _ Hfr (q ++ [k]) l1 ms1 ps1) as (e & He & Heq);
        [by destruct q|done|done|].
      exists e. rewrite Heq. split_and!; [done|by apply prefix_app_r|].
      intros Hqk. apply (f_equal length) in Hqk. rewrite length_app in Hqk.
      simpl in Hqk. lia.
  - intros (e & He & [r Hr] & Hne) ->.
    destruct r as [|k r]; [by rewrite app_nil_r in Hr|].
    destruct (inv_arrays _ _ _ _ _ Hinv e He) as (l1 & ms1 & ps1 & Hw1 & _).
    { rewrite Hr. by destruct q. }
    rewrite Hr, walk_app, Hw in Hw1. simpl in Hw1.
    rewrite Hl in Hw1. simpl in Hw1. by rewrite lookup_empty in Hw1.
Qed.

Lemma report_arrays_with_properties_witness :
  ∃ root fe de h,
    Validator.sanitizeValidationErrors example_nested ∅ = Ret (Some root) h ∧
    walk h root ["fieldErrors"] = Some fe ∧
    walk h root ["documentErrors"] = Some de ∧
    (∃ ms, h !! de = Some (Arr ms ∅)) ∧
    ∀ q l ms ps, q ≠ [] → walk h fe q = Some l → h !! l = Some (Arr ms ps) →
      (ps ≠ ∅ ↔
       ∃ e, e ∈ example_nested ∧ q `prefix_of` Validator.extractPathSegments e ∧
            q ≠ Validator.extractPathSegments e).
Proof.
  apply (report_arrays_with_properties example_nested ∅).
  - reflexivity.
  - apply (bool_decide_unpack _). vm_compute. exact I.
  - apply (bool_decide_unpack _). vm_compute. exact I.
Defined.

(** ** The route of an error *)

(** Where the node at the path of the error is an object, the message is
    appended to no sequence: the call fails and the store is as it was. *)
Example sanitize_at_object_fails :
  Validator.extractPathSegments (RawError "TYPE" None "m1" "#/field1")
  = ["field1"] ∧
  walk nested_store 1%positive ["fieldErrors"; "field1"] = Some 4%positive ∧
  nested_store !! 4%positive = Some (Obj (<["inner" := 5%positive]> ∅)) ∧
  Validator.sanitizeError (RawError "TYPE" None "m1" "#/field1")
    (Some 1%positive) nested_store
  = Throw TypeError nested_store.
Proof. split_and!; reflexivity. Qed.

(** X15: for an error whose path is written in the notation of
    z-schema, a marker and segments each after a slash, the path of the error
    is these segments followed, for a required-property failure, by the
    missing property its parameters name.  When the names of this path are
    read as own properties: with an empty path the message goes to the end
    of [documentErrors]; otherwise the path is resolved or created below
    [fieldErrors], and the message goes to the end of the array found there,
    or the call fails with a [TypeError] and leaves the store as it was when
    an object is found there.  The one error of a document that misses a
    top-level required property is reported under [fieldErrors] at the name
    of the property, and [documentErrors] stays empty. *)
Theorem sanitizeError_routes_by_path
    (c m marker : string) (ps : option (list string)) (segments : list string)
    (slash : bool) (h : heap) (errorMap fe de : loc) :
  let e := RawError c ps m (error_path marker segments slash) in
  let p := segments ++ (if String.eqb c "OBJECT_MISSING_REQUIRED_PROPERTY"
                        then default [] ps else []) in
  marker ≠ "" → has_char "/" marker = false →
  Forall (λ s, s ≠ "" ∧ has_char "/" s = false) segments →
  own_names p = true → closed h → error_map h errorMap fe de →
  Validator.extractPathSegments e = p ∧
  (p = [] → ∀ ms props, h !! de = Some (Arr ms props) →
     Validator.sanitizeError e (Some errorMap) h
     = Ret tt (<[de := Arr (ms ++ [m]) props]> h)) ∧
  (p ≠ [] → ∃ t h1,
     Validator.resolveOrCreateTargetFromPath (Some fe) p h = Ret (Some t) h1 ∧
     walk h1 fe p = Some t ∧
     (∀ ms props, h1 !! t = Some (Arr ms props) →
        Validator.sanitizeError e (Some errorMap) h
        = Ret tt (<[t := Arr (ms ++ [m]) props]> h1)) ∧
     (∀ props, h1 !! t = Some (Obj props) →
        Validator.sanitizeError e (Some errorMap) h = Throw TypeError h)) ∧
  (∀ name, segments = [] → c = "OBJECT_MISSING_REQUIRED_PROPERTY" →
           ps = Some [name] →
     ∃ root t props d h',
       Validator.sanitizeValidationErrors [e] h = Ret (Some root) h' ∧
       walk h' root ["fieldErrors"; name] = Some t ∧
       h' !! t = Some (Arr [m] props) ∧
       walk h' root ["documentErrors"] = Some d ∧
       h' !! d = Some (Arr [] ∅)).
Proof.
  intros e p Hne Hm Hall Hown Hc Hmap.
  assert (Validator.extractPathSegments e = p) as Hp
    by by apply extract_notation.
  split_and!; [done| | |].
  - intros Hnil ms props Hde. unfold Validator.sanitizeError. rewrite Hp, Hnil.
    rewrite (save_document h errorMap fe de) by done. by apply push_array.
  - intros Hpath.
    assert (is_Some (h !! fe)) as Hfe.
    { destruct Hmap as (o & Ho & ? & ?). by eapply closed_lookup. }
    destruct (resolve_spec p h fe Hc Hfe Hown)
      as (t & h1 & Hrun & _ & _ & Hw & Hnew & _).
    exists t, h1. split_and!; [done|done| |].
    + intros ms props Ht. unfold Validator.sanitizeError. rewrite Hp.
      rewrite (save_field h errorMap fe de) by done.
      rewrite (bind_Ret _ _ h (Some t) h1 Hrun). by apply push_array.
    + intros props Ht. unfold Validator.sanitizeError. rewrite Hp.
      rewrite (save_field h errorMap fe de) by done.
      rewrite (bind_Ret _ _ h (Some t) h1 Hrun).
      destruct Hnew as [[-> _]|[_ Hleaf]]; [|congruence].
      by apply (push_object h t props).
  - intros name Hsegs Hcode Hparams.
    assert (p = [name]) as Hname.
    { unfold p. rewrite Hsegs, Hcode, Hparams. reflexivity. }
    assert (own_paths [e] = true) as Hpaths.
    { unfold own_paths. simpl. by rewrite Hp, Hown. }
    destruct (sanitize_report [e] h Hc Hpaths)
      as [(root & fe' & de' & h' & Hrun & Hinv)|
          (h' & pre & e1 & post & _ & Hsplit & _ & He0)].
    + destruct (report_array [e] h' root fe' de' e Hinv) as (t & props & Hw & Ht).
      { by apply list_elem_of_singleton. }
      { by rewrite Hp, Hname. }
      rewrite Hp, Hname in Hw, Ht.
      exists root, t, props, de', h'. split_and!; [done| | | |].
      * by rewrite (report_field [e] h' root fe' de').
      * unfold messages_at in Ht. rewrite filter_cons, filter_nil in Ht.
        rewrite Hp, Hname in Ht. by rewrite decide_True in Ht.
      * by eapply report_document.
      * rewrite (inv_document _ _ _ _ _ Hinv). unfold messages_at.
        rewrite filter_cons, filter_nil. rewrite Hp, Hname.
        by rewrite decide_False.
    + destruct pre as [|e2 pre]; [by apply Exists_nil in He0|].
      destruct pre; discriminate.
Qed.

Lemma sanitizeError_routes_by_path_witness :
  Validator.extractPathSegments example_required = ["shallowlyRequired"] ∧
  (∃ root t props d h',
     Validator.sanitizeValidationErrors [example_required] example_store
     = Ret (Some root) h' ∧
     walk h' root ["fieldErrors"; "shallowlyRequired"] = Some t ∧
     h' !! t = Some (Arr [message example_required] props) ∧
     walk h' root ["documentErrors"] = Some d ∧
     h' !! d = Some (Arr [] ∅)) ∧
  Validator.extractPathSegments example_document = [] ∧
  Validator.sanitizeError example_document (Some 1%positive) example_store
  = Ret tt (<[2%positive := Arr ([] ++ [message example_document]) ∅]> example_store).
Proof.
  assert (closed example_store) as Hc
    by (apply (bool_decide_unpack _); vm_compute; exact I).
  assert (error_map example_store 1%positive 3%positive 2%positive) as Hm
    by (eexists; split_and!; [vm_compute; reflexivity|reflexivity|reflexivity]).
  pose proof (sanitizeError_routes_by_path
                "OBJECT_MISSING_REQUIRED_PROPERTY"
                "Missing required property: shallowlyRequired" "#"
                (Some ["shallowlyRequired"]) [] true
                example_store 1%positive 3%positive 2%positive) as Hreq.
  pose proof (sanitizeError_routes_by_path
                "INVALID_TYPE" "Expected type object but found type string" "#"
                None [] true
                example_store 1%positive 3%positive 2%positive) as Hdoc.
  cbv zeta in Hreq, Hdoc.
  destruct Hreq as (H1 & _ & _ & H4);
    [discriminate|reflexivity|constructor|reflexivity|exact Hc|exact Hm|].
  destruct Hdoc as (H2 & H3 & _ & _);
    [discriminate|reflexivity|constructor|reflexivity|exact Hc|exact Hm|].
  split_and!.
  - exact H1.
  - apply (H4 "shallowlyRequired"); reflexivity.
  - exact H2.
  - apply H3; reflexivity.
Defined.
